(** * Network-consistent rationalizability: the PotluckSolver of pce/solver.py

    A shallow embedding of [PotluckSolver] ([__init__],
    [consistentStrategies], [reduceProfiles], [checkBestResponse], [solve])
    together with the part of the PuLP and networkx interfaces the solver
    drives, followed by the properties of the elimination procedure.

    Conventions.
    - Players, actions and graph nodes are non-negative Python ints: [nat].
    - A profile and an opponent tuple are Python tuples of ints: [list nat].
    - The Python [set] of opponent tuples is a [gset (list nat)]; [list(s)]
      is [elements s], an arbitrary but fixed enumeration.
    - Utilities and LP coefficients are exact rationals ([Q]).
    - A Python exception is the [Raise] branch of [result].
    - The payoff table [self.game] comes from the [potluck] module, the LP
      backend from [pl.getSolver]: both are fields of the solver object, the
      first a function from profiles and players to utilities, the second a
      function from programs to status codes.
    - The [while] loop of [solve] is run on fuel and counts its rounds.

    - [NoStdStreams] is modelled on a heap of file objects (module [pyio]).

    Left out: the [print] calls of the solver, [PotluckArgs], the unused
    [self.model] and the script under [__main__]. *)

From Stdlib Require Import QArith Lqa.
From Stdlib Require Strings.String.
From stdpp Require Import functions gmap list.

Local Open Scope nat_scope.
#[local] Set Warnings "-clear-no-such-hyp".

(** ** Python exceptions *)

Inductive exn : Type :=
| IndexError
| TypeError
| AssertionError
| NetworkXError.

Inductive result (A : Type) : Type :=
| Ok (a : A)
| Raise (e : exn).
Arguments Ok {A} a.
Arguments Raise {A} e.

#[global] Instance result_ret : MRet result := fun A a => Ok a.
#[global] Instance result_bind : MBind result := fun A B f m =>
  match m with
  | Ok a => f a
  | Raise e => Raise e
  end.

(** [t[i]] on a tuple, for a non-negative index. *)
Definition py_getitem {A : Type} (t : list A) (i : nat) : result A :=
  match t !! i with
  | Some x => Ok x
  | None => Raise IndexError
  end.

(** [all(f(i) for i in it)]: the generator is consumed left to right and
    abandoned at the first false element; an exception raised by an element
    that is reached propagates. *)
Fixpoint py_all {A : Type} (f : A → result bool) (it : list A) : result bool :=
  match it with
  | [] => Ok true
  | i :: it' =>
      b ← f i;
      if b : bool then py_all f it' else Ok false
  end.

(** [itertools.product(pool, repeat=n)]: the first coordinate varies
    slowest. *)
Fixpoint product (pool : list nat) (repeat : nat) : list (list nat) :=
  match repeat with
  | 0 => [[]]
  | S r => x ← pool; (λ rest, x :: rest) <$> product pool r
  end.

(** [range(n)] *)
Definition range (n : nat) : list nat := seq 0 n.

(** ** networkx: an undirected graph as its adjacency dictionary *)

Module nx.

Definition Graph := gmap nat (list nat).

(** [G.neighbors(n)] raises NetworkXError when [n] is not a node. *)
Definition neighbors (G : Graph) (n : nat) : result (list nat) :=
  match G !! n with
  | Some adj => Ok adj
  | None => Raise NetworkXError
  end.

Definition number_of_nodes (G : Graph) : nat := size G.

End nx.

(** ** PuLP: variables, affine expressions, constraints, problems *)

Module pl.

(** [LpVariable(name, lowBound, upBound)].  The solver names a variable
    [str(p)] for the opponent tuple [p]; [str] is injective on tuples of
    ints, so the name is kept as the tuple itself. *)
Record LpVariable : Type := mkLpVariable {
  name : list nat;
  lowBound : Q;
  upBound : Q
}.

(** A dictionary from variables to coefficients plus a constant; the
    terms of one variable add up. *)
Record LpAffineExpression : Type := mkAff {
  terms : list (LpVariable * Q);
  constant : Q
}.

Inductive LpSense : Type := LpConstraintLE | LpConstraintEQ | LpConstraintGE.

(** [LpConstraint(e, sense)] stands for [e sense 0]. *)
Record LpConstraint : Type := mkLpConstraint {
  expr : LpAffineExpression;
  sense : LpSense
}.

Record LpProblem : Type := mkLpProblem {
  objective : LpAffineExpression;
  constraints : list LpConstraint
}.

(** Status codes of [LpProblem.status]. *)
Definition LpStatusOptimal : Z := 1.
Definition LpStatusNotSolved : Z := 0.
Definition LpStatusInfeasible : Z := -1.
Definition LpStatusUnbounded : Z := -2.
Definition LpStatusUndefined : Z := -3.

(** What Python arithmetic on numbers, variables and expressions yields. *)
Inductive pyval : Type :=
| Num (q : Q)
| Var (v : LpVariable)
| Aff (e : LpAffineExpression).

(** What a Python comparison yields: a [bool] between numbers, a
    constraint as soon as an expression is involved. *)
Inductive pycond : Type :=
| PyBool (b : bool)
| Constr (c : LpConstraint).

Definition of_var (v : LpVariable) : LpAffineExpression :=
  mkAff [(v, 1%Q)] 0%Q.

Definition aff_add (e1 e2 : LpAffineExpression) : LpAffineExpression :=
  mkAff (terms e1 ++ terms e2) (constant e1 + constant e2)%Q.

Definition aff_scale (k : Q) (e : LpAffineExpression) : LpAffineExpression :=
  mkAff ((λ t : LpVariable * Q, (t.1, (k * t.2)%Q)) <$> terms e) (k * constant e)%Q.

Definition aff_sub (e1 e2 : LpAffineExpression) : LpAffineExpression :=
  aff_add e1 (aff_scale (-1)%Q e2).

Definition aff_const (q : Q) : LpAffineExpression := mkAff [] q.

Definition to_aff (x : pyval) : LpAffineExpression :=
  match x with
  | Num q => aff_const q
  | Var v => of_var v
  | Aff e => e
  end.

(** [x + y] *)
Definition pyadd (x y : pyval) : pyval :=
  match x, y with
  | Num a, Num b => Num (a + b)%Q
  | _, _ => Aff (aff_add (to_aff x) (to_aff y))
  end.

(** [x * k] for a number [k] *)
Definition pymul (x : pyval) (k : Q) : pyval :=
  match x with
  | Num a => Num (a * k)%Q
  | _ => Aff (aff_scale k (to_aff x))
  end.

(** [sum(xs)]: starts from the int 0 and adds from the left. *)
Definition pysum (xs : list pyval) : pyval :=
  fold_left pyadd xs (Num 0%Q).

(** [x == y] *)
Definition pyeq (x y : pyval) : pycond :=
  match x, y with
  | Num a, Num b => PyBool (Qeq_bool a b)
  | _, _ => Constr (mkLpConstraint (aff_sub (to_aff x) (to_aff y)) LpConstraintEQ)
  end.

(** [x <= y]; with a number on the left and an expression on the right
    Python falls back on the reflected [y >= x]. *)
Definition pyle (x y : pyval) : pycond :=
  match x, y with
  | Num a, Num b => PyBool (Qle_bool a b)
  | Num a, _ => Constr (mkLpConstraint (aff_sub (to_aff y) (aff_const a)) LpConstraintGE)
  | _, _ => Constr (mkLpConstraint (aff_sub (to_aff x) (to_aff y)) LpConstraintLE)
  end.

(** [LpProblem(name, sense)]: no objective, no constraint. *)
Definition LpProblem_new : LpProblem := mkLpProblem (aff_const 0%Q) [].

(** [prob += k] for a number [k]: the objective becomes the constant. *)
Definition iadd_num (prob : LpProblem) (k : Q) : LpProblem :=
  mkLpProblem (aff_const k) (constraints prob).

(** [prob += c] for the outcome of a comparison: [True] is ignored,
    [False] is refused ("A False object cannot be passed as a constraint"),
    a constraint is appended. *)
Definition iadd (prob : LpProblem) (c : pycond) : result LpProblem :=
  match c with
  | PyBool true => Ok prob
  | PyBool false => Raise TypeError
  | Constr c => Ok (mkLpProblem (objective prob) (constraints prob ++ [c]))
  end.

(** *** Meaning of a problem *)

(** An assignment gives every variable, by name, a value. *)
Definition assignment := list nat → Q.

Definition eval_terms (val : assignment) (ts : list (LpVariable * Q)) : Q :=
  foldr (λ (t : LpVariable * Q) acc, (t.2 * val (name t.1) + acc)%Q) 0%Q ts.

Definition eval (val : assignment) (e : LpAffineExpression) : Q :=
  (eval_terms val (terms e) + constant e)%Q.

Definition holds (val : assignment) (c : LpConstraint) : Prop :=
  match sense c with
  | LpConstraintLE => (eval val (expr c) <= 0)%Q
  | LpConstraintEQ => (eval val (expr c) == 0)%Q
  | LpConstraintGE => (0 <= eval val (expr c))%Q
  end.

Definition in_bounds (val : assignment) (c : LpConstraint) : Prop :=
  ∀ t, t ∈ terms (expr c) →
    (lowBound t.1 <= val (name t.1))%Q ∧ (val (name t.1) <= upBound t.1)%Q.

(** The problem has a feasible point: every variable that occurs is
    within its bounds and every constraint holds. *)
Definition feasible (prob : LpProblem) : Prop :=
  ∃ val : assignment,
    ∀ c, c ∈ constraints prob → in_bounds val c ∧ holds val c.

End pl.

(** ** The solver object *)

(** The game wrapper the solver is built from: [numActions], [numPlayers]
    and the payoff table [game], where [game p i] is [game[p][i]], the
    utility of player [i] at profile [p]. *)
Record GameWrapper : Type := mkGameWrapper {
  numActions : nat;
  numPlayers : nat;
  game : list nat → nat → Q
}.

(** The fields of [PotluckSolver] that the methods read.  [solver] is the
    backend selected by [pl.getSolver]: [solver prob] is [prob.status] after
    [prob.solve(self.solver)]. *)
Record PotluckSolver : Type := mkPotluckSolver {
  gameWrapper : GameWrapper;
  solver : pl.LpProblem → Z;
  profiles : list (list nat);
  network : nx.Graph
}.

(** [PotluckSolver.__init__]: the profile list is the full product; the
    only check is that a network was passed. *)
Definition init (gameWrapper : GameWrapper) (solver : pl.LpProblem → Z)
    (network : option nx.Graph) : result PotluckSolver :=
  let profiles := product (range (numActions gameWrapper)) (numPlayers gameWrapper) in
  match network with
  | None => Raise AssertionError
  | Some G => Ok (mkPotluckSolver gameWrapper solver profiles G)
  end.

(** [tuple(list(p)[:player] + list(p)[player + 1:])] *)
Definition opponents (p : list nat) (player : nat) : list nat :=
  take player p ++ drop (player + 1) p.

(** [t[:player] + (action,) + t[player:]] *)
Definition with_action (t : list nat) (player action : nat) : list nat :=
  take player t ++ [action] ++ drop player t.

Section Methods.

Variable self : PotluckSolver.

(** [profile[i] == p[i]] *)
Definition same_action (profile p : list nat) (i : nat) : result bool :=
  a ← py_getitem profile i;
  b ← py_getitem p i;
  mret (bool_decide (a = b)).

(** The loop of [consistentStrategies] over the profiles still to visit,
    [consistent] being the set built so far. *)
Fixpoint consistent_loop (profile : list nat) (player : nat)
    (todo : list (list nat)) (consistent : gset (list nat))
    : result (gset (list nat)) :=
  match todo with
  | [] => Ok consistent
  | p :: todo' =>
      nbrs ← nx.neighbors (network self) player;
      agree ← py_all (same_action profile p) nbrs;
      if agree : bool
      then consistent_loop profile player todo' (consistent ∪ {[ opponents p player ]})
      else consistent_loop profile player todo' consistent
  end.

Definition consistentStrategies (profile : list nat) (player : nat)
    (profilesToConsider : list (list nat)) : result (gset (list nat)) :=
  consistent_loop profile player profilesToConsider ∅.

(** The generator
    [variables[j] * game[oc[j][:player] + (a,) + oc[j][player:]][player]
     for j in range(len(variables))],
    where the action [a] is itself an expression evaluated at each [j]. *)
Definition utility_terms (variables : list pl.LpVariable)
    (orderedConsistent : list (list nat)) (player : nat)
    (action : result nat) : result (list pl.pyval) :=
  mapM (λ j,
          v ← py_getitem variables j;
          t ← py_getitem orderedConsistent j;
          a ← action;
          mret (pl.pymul (pl.Var v)
                  (game (gameWrapper self) (with_action t player a) player)))
       (range (length variables)).

(** The loop [for action in range(numActions): prob += (sum(...) <= action_utility)]. *)
Fixpoint constraints_loop (variables : list pl.LpVariable)
    (orderedConsistent : list (list nat)) (player : nat)
    (action_utility : pl.pyval) (actions : list nat) (prob : pl.LpProblem)
    : result pl.LpProblem :=
  match actions with
  | [] => Ok prob
  | action :: actions' =>
      ts ← utility_terms variables orderedConsistent player (Ok action);
      prob' ← pl.iadd prob (pl.pyle (pl.pysum ts) action_utility);
      constraints_loop variables orderedConsistent player action_utility actions' prob'
  end.

(** The linear program that [checkBestResponse] builds before it calls
    the solver. *)
Definition bestResponseLP (profile : list nat) (player : nat)
    (consistent : gset (list nat)) : result pl.LpProblem :=
  let prob := pl.LpProblem_new in
  let orderedConsistent := elements consistent in
  let variables := (λ p, pl.mkLpVariable p 0%Q 1%Q) <$> orderedConsistent in
  let prob := pl.iadd_num prob 0%Q in
  prob ← pl.iadd prob (pl.pyeq (pl.pysum (pl.Var <$> variables)) (pl.Num 1%Q));
  ts ← utility_terms variables orderedConsistent player (py_getitem profile player);
  let action_utility := pl.pysum ts in
  constraints_loop variables orderedConsistent player action_utility
    (range (numActions (gameWrapper self))) prob.

Definition checkBestResponse (profile : list nat) (player : nat)
    (consistent : gset (list nat)) : result bool :=
  prob ← bestResponseLP profile player consistent;
  let status := solver self prob in
  if (status =? -1)%Z then Ok false else Ok true.

(** The inner loop of [reduceProfiles] over the players still to check:
    [false] when it leaves through [break], [true] when it runs to its
    [else] branch. *)
Fixpoint players_loop (profile : list nat)
    (profilesToConsider : list (list nat)) (players : list nat) : result bool :=
  match players with
  | [] => Ok true
  | player :: players' =>
      consistent ← consistentStrategies profile player profilesToConsider;
      isBestResponse ← checkBestResponse profile player consistent;
      if isBestResponse : bool
      then players_loop profile profilesToConsider players'
      else Ok false
  end.

(** The outer loop of [reduceProfiles]. *)
Fixpoint reduce_loop (profilesToConsider todo reducedProfiles : list (list nat))
    : result (list (list nat)) :=
  match todo with
  | [] => Ok reducedProfiles
  | profile :: todo' =>
      clear ← players_loop profile profilesToConsider
                (range (numPlayers (gameWrapper self)));
      reduce_loop profilesToConsider todo'
        (if clear : bool then reducedProfiles ++ [profile] else reducedProfiles)
  end.

Definition reduceProfiles (profilesToConsider : list (list nat))
    : result (list (list nat)) :=
  reduce_loop profilesToConsider profilesToConsider [].

(** [previous_size] starts as [float("inf")]. *)
Inductive size : Type := Inf | Fin (n : nat).

(** [previous_size - current_size > 0] *)
Definition shrunk (previous_size : size) (current_size : nat) : bool :=
  match previous_size with
  | Inf => true
  | Fin n => bool_decide (current_size < n)
  end.

(** The [while] loop of [solve], [profiles] being [self.profiles].  The
    loop is run for at most [fuel] iterations ([None]: the fuel ran out
    before the loop condition failed).  [rounds] counts the calls of
    [reduceProfiles] made so far; it is returned next to the result. *)
Fixpoint solve_loop (fuel : nat) (previous_size : size) (current_size : nat)
    (profiles : list (list nat)) (rounds : nat)
    : option (result (list (list nat) * nat)) :=
  if shrunk previous_size current_size then
    match fuel with
    | 0 => None
    | S fuel' =>
        let previous_size := Fin current_size in
        match reduceProfiles profiles with
        | Raise e => Some (Raise e)
        | Ok profiles' =>
            solve_loop fuel' previous_size (length profiles') profiles' (S rounds)
        end
    end
  else Some (Ok (profiles, rounds)).

Definition solve (fuel : nat) : option (result (list (list nat) * nat)) :=
  solve_loop fuel Inf (length (profiles self)) (profiles self) 0.

End Methods.

(** ** NoStdStreams: the context manager that silences the standard streams

    File objects live in the interpreter's heap and are shared by
    reference: [sys.stdout], [sys.stderr] and the fields of the context
    manager are addresses.  A file keeps what was written and not yet
    flushed, what was flushed, and whether it is closed; [flush] and [write]
    on a closed file raise [ValueError], [close] on a closed file does
    nothing. *)

Module pyio.

Inductive error : Type := ValueError | AttributeError.

Record file : Type := mkFile {
  closed : bool;
  buffer : list String.string;
  flushed : list String.string
}.

Record interp : Type := mkInterp {
  heap : nat → file;
  next : nat;
  sys_stdout : nat;
  sys_stderr : nat
}.

Definition set_file (st : interp) (h : nat) (f : file) : interp :=
  mkInterp (<[h := f]> (heap st)) (next st) (sys_stdout st) (sys_stderr st).

Definition set_streams (st : interp) (out err : nat) : interp :=
  mkInterp (heap st) (next st) out err.

(** [open(os.devnull, "w")]: a new file object at the first free address. *)
Definition open_devnull (st : interp) : nat * interp :=
  (next st,
   mkInterp (<[next st := mkFile false [] []]> (heap st)) (S (next st))
            (sys_stdout st) (sys_stderr st)).

(** [f.flush()] *)
Definition flush (st : interp) (h : nat) : error + interp :=
  let f := heap st h in
  if closed f then inl ValueError
  else inr (set_file st h (mkFile false [] (flushed f ++ buffer f))).

(** [f.write(s)] *)
Definition write (st : interp) (h : nat) (s : String.string) : error + interp :=
  let f := heap st h in
  if closed f then inl ValueError
  else inr (set_file st h (mkFile false (buffer f ++ [s]) (flushed f))).

(** [f.close()]: flushes, then closes; a second call is ignored. *)
Definition close (st : interp) (h : nat) : interp :=
  let f := heap st h in
  if closed f then st
  else set_file st h (mkFile true [] (flushed f ++ buffer f)).

(** The attributes of a [NoStdStreams] object; [old_stdout] and
    [old_stderr] exist only after [__enter__]. *)
Record NoStdStreams : Type := mkNoStdStreams {
  devnull : nat;
  _stdout : nat;
  _stderr : nat;
  old_stdout : option nat;
  old_stderr : option nat
}.

(** [NoStdStreams.__init__(stdout, stderr)]: a file object is truthy, so
    [stdout or self.devnull or sys.stdout] is [stdout] when one is passed
    and [self.devnull] otherwise. *)
Definition NoStdStreams_init (stdout stderr : option nat) (st : interp)
    : NoStdStreams * interp :=
  let (dn, st') := open_devnull st in
  (mkNoStdStreams dn (default dn stdout) (default dn stderr) None None, st').

(** What a method leaves behind: the exception raised, if any, the object
    and the interpreter state. *)
Definition outcome : Type := option error * NoStdStreams * interp.

(** [NoStdStreams.__enter__] *)
Definition enter (self : NoStdStreams) (st : interp) : outcome :=
  let self := mkNoStdStreams (devnull self) (_stdout self) (_stderr self)
                (Some (sys_stdout st)) (Some (sys_stderr st)) in
  match flush st (sys_stdout st) with
  | inl e => (Some e, self, st)
  | inr st1 =>
      match flush st1 (sys_stderr st) with
      | inl e => (Some e, self, st1)
      | inr st2 => (None, self, set_streams st2 (_stdout self) (_stderr self))
      end
  end.

(** [NoStdStreams.__exit__] *)
Definition exit (self : NoStdStreams) (st : interp) : outcome :=
  match flush st (_stdout self) with
  | inl e => (Some e, self, st)
  | inr st1 =>
      match flush st1 (_stderr self) with
      | inl e => (Some e, self, st1)
      | inr st2 =>
          match old_stdout self with
          | None => (Some AttributeError, self, st2)
          | Some out =>
              let st3 := set_streams st2 out (sys_stderr st2) in
              match old_stderr self with
              | None => (Some AttributeError, self, st3)
              | Some err =>
                  let st4 := set_streams st3 (sys_stdout st3) err in
                  (None, self, close st4 (devnull self))
              end
          end
      end
  end.

(** The statements of a block: [print(s)] and [print(s, file=sys.stderr)]. *)
Inductive stmt : Type :=
| print_out (s : String.string)
| print_err (s : String.string).

Definition exec (c : stmt) (st : interp) : error + interp :=
  match c with
  | print_out s => write st (sys_stdout st) s
  | print_err s => write st (sys_stderr st) s
  end.

(** The block runs until a statement raises. *)
Fixpoint run (body : list stmt) (st : interp) : option error * interp :=
  match body with
  | [] => (None, st)
  | c :: body' =>
      match exec c st with
      | inl e => (Some e, st)
      | inr st' => run body' st'
      end
  end.

(** [with NoStdStreams(stdout, stderr): body].  [__exit__] runs whether
    or not the block raised; it returns [None], so an exception of the block
    propagates, unless [__exit__] raises itself. *)
Definition with_NoStdStreams (stdout stderr : option nat) (body : list stmt)
    (st : interp) : outcome :=
  let (self, st0) := NoStdStreams_init stdout stderr st in
  match enter self st0 with
  | (Some e, self1, st1) => (Some e, self1, st1)
  | (None, self1, st1) =>
      let (r, st2) := run body st1 in
      match exit self1 st2 with
      | (Some e, self2, st3) => (Some e, self2, st3)
      | (None, self2, st3) => (r, self2, st3)
      end
  end.

End pyio.

(** * Part 2. The vocabulary of the claims *)

(** ** Well-formed inputs *)

(** Every profile of the list has one action per player. *)
Definition wf_profiles (self : PotluckSolver) (S : list (list nat)) : Prop :=
  ∀ p, p ∈ S → length p = numPlayers (gameWrapper self).

(** Every player is a node of the network and its neighbours are players. *)
Definition wf_network (self : PotluckSolver) : Prop :=
  ∀ i, i < numPlayers (gameWrapper self) →
    ∃ nbrs, network self !! i = Some nbrs ∧
      ∀ n, n ∈ nbrs → n < numPlayers (gameWrapper self).

(** The neighbour relation is irreflexive: no player has a self-loop. *)
Definition no_self_loops (self : PotluckSolver) : Prop :=
  ∀ i nbrs, network self !! i = Some nbrs → i ∉ nbrs.

(** [p] shows the same action as [profile] at every index of [nbrs]. *)
Definition agrees (profile : list nat) (nbrs : list nat) (p : list nat) : Prop :=
  Forall (λ i, profile !! i = p !! i) nbrs.

#[global] Instance agrees_dec profile nbrs p : Decision (agrees profile nbrs p).
Proof. unfold agrees. apply _. Defined.

(** ** The set the consistency oracle computes *)

(** The set [consistentStrategies] computes when nothing raises. *)
Definition consistent_set (profile : list nat) (nbrs : list nat) (player : nat)
    (S : list (list nat)) : gset (list nat) :=
  list_to_set ((λ p, opponents p player) <$> filter (agrees profile nbrs) S).

(** ** Expected utilities and conjectures *)

Definition Qsum (l : list Q) : Q := foldr Qplus 0%Q l.

(** The expected utility of [player] for playing [action] when the
    opponent tuple [t] of the support has weight [w t]. *)
Definition expected_utility (gw : GameWrapper) (w : list nat → Q)
    (support : gset (list nat)) (player action : nat) : Q :=
  Qsum ((λ t, w t * game gw (with_action t player action) player)%Q
          <$> elements support).

(** [w] is a probability distribution over [support]: weights in [0,1]
    that sum to 1. *)
Definition conjecture (w : list nat → Q) (support : gset (list nat)) : Prop :=
  (∀ t, t ∈ support → (0 <= w t)%Q ∧ (w t <= 1)%Q)
  ∧ (Qsum (w <$> elements support) == 1)%Q.

(** Under [w] no action of the player does better than [action]. *)
Definition best_response (gw : GameWrapper) (w : list nat → Q)
    (support : gset (list nat)) (player action : nat) : Prop :=
  ∀ a, a < numActions gw →
    (expected_utility gw w support player a
     <= expected_utility gw w support player action)%Q.

(** The distribution that puts all the weight on [t0]. *)
Definition point_mass (t0 : list nat) : list nat → Q :=
  λ t, if decide (t = t0) then 1%Q else 0%Q.

(** ** The shape of the program [checkBestResponse] builds *)

Definition is_num (x : pl.pyval) : bool :=
  match x with
  | pl.Num _ => true
  | _ => false
  end.

(** The variables an expression mentions. *)
Definition vars (e : pl.LpAffineExpression) : list pl.LpVariable :=
  (λ t : pl.LpVariable * Q, t.1) <$> pl.terms e.

Definition lp_variable (t : list nat) : pl.LpVariable := pl.mkLpVariable t 0%Q 1%Q.

(** The summands [variables[j] * game[...][player]] for one action. *)
Definition weighted (self : PotluckSolver) (player action : nat)
    (oc : list (list nat)) : list pl.pyval :=
  (λ t, pl.pymul (pl.Var (lp_variable t))
          (game (gameWrapper self) (with_action t player action) player))
    <$> oc.

(** [sum(variables) == 1] *)
Definition sum_constraint (oc : list (list nat)) : pl.LpConstraint :=
  pl.mkLpConstraint
    (pl.aff_sub (pl.to_aff (pl.pysum (pl.Var <$> (lp_variable <$> oc))))
                (pl.to_aff (pl.Num 1%Q)))
    pl.LpConstraintEQ.

(** [sum(... action ...) <= action_utility] *)
Definition action_constraint (self : PotluckSolver) (player fixed : nat)
    (oc : list (list nat)) (action : nat) : pl.LpConstraint :=
  pl.mkLpConstraint
    (pl.aff_sub (pl.to_aff (pl.pysum (weighted self player action oc)))
                (pl.to_aff (pl.pysum (weighted self player fixed oc))))
    pl.LpConstraintLE.

(** The program built for a non-empty support and an action
    [profile[player]] that exists. *)
Definition best_response_program (self : PotluckSolver) (player fixed : nat)
    (oc : list (list nat)) : pl.LpProblem :=
  pl.mkLpProblem (pl.aff_const 0%Q)
    (sum_constraint oc
     :: (action_constraint self player fixed oc
           <$> range (numActions (gameWrapper self)))).

(** ** What is assumed of, and asked from, the backend *)

(** The backend answers the program [prob] exactly: it reports a status
    other than infeasible precisely when [prob] has a feasible point. *)
Definition solver_exact_on (self : PotluckSolver) (prob : pl.LpProblem) : Prop :=
  pl.feasible prob ↔ solver self prob ≠ pl.LpStatusInfeasible.

(** The backend never reports a program that has a feasible point as
    infeasible. *)
Definition solver_sound (self : PotluckSolver) : Prop :=
  ∀ prob, pl.feasible prob → solver self prob ≠ pl.LpStatusInfeasible.

(** What the checker would do if it told the solver's statuses apart:
    true exactly on optimal, false exactly on infeasible, an exception on
    every other status. *)
Definition status_contract (status : Z) (r : result bool) : Prop :=
  (r = Ok true ↔ status = pl.LpStatusOptimal)
  ∧ (r = Ok false ↔ status = pl.LpStatusInfeasible)
  ∧ (status ≠ pl.LpStatusOptimal → status ≠ pl.LpStatusInfeasible →
     ∃ e, r = Raise e).

(** The backend answers every program of a non-empty support and a fixed
    action of the game exactly. *)
Definition solver_exact (self : PotluckSolver) : Prop :=
  ∀ player fixed (support : gset (list nat)),
    fixed < numActions (gameWrapper self) →
    support ≠ ∅ →
    solver_exact_on self (best_response_program self player fixed (elements support)).

(** The weights of [w] on [support], zero elsewhere. *)
Definition restrict (w : list nat → Q) (support : gset (list nat)) : list nat → Q :=
  λ t, if decide (t ∈ support) then w t else 0%Q.

(** ** Surviving a round *)

(** Player [player] passes at [profile] in the round that starts from
    [S]: the feasibility check on its consistent support returns [True]. *)
Definition passes (self : PotluckSolver) (S : list (list nat))
    (profile : list nat) (player : nat) : bool :=
  match consistentStrategies self profile player S with
  | Ok consistent =>
      match checkBestResponse self profile player consistent with
      | Ok true => true
      | _ => false
      end
  | Raise _ => false
  end.

(** Every player passes at [profile]. *)
Definition survivesb (self : PotluckSolver) (S : list (list nat))
    (profile : list nat) : bool :=
  forallb (passes self S profile) (range (numPlayers (gameWrapper self))).

(** For every player the check on the player's consistent support,
    taken against [S], succeeds. *)
Definition survives (self : PotluckSolver) (S : list (list nat))
    (profile : list nat) : Prop :=
  ∀ player, player < numPlayers (gameWrapper self) →
    ∃ consistent,
      consistentStrategies self profile player S = Ok consistent
      ∧ checkBestResponse self profile player consistent = Ok true.

(** The candidate list after [k] rounds that all complete. *)
Fixpoint candidates_after (self : PotluckSolver) (k : nat) (S : list (list nat))
    : result (list (list nat)) :=
  match k with
  | 0 => Ok S
  | Datatypes.S k' => S' ← candidates_after self k' S; reduceProfiles self S'
  end.

(** What the loop of [solve] knows about [previous_size]: it is the
    length of the list whose reduction is the current list. *)
Definition previous_round (self : PotluckSolver) (previous_size : size)
    (S : list (list nat)) : Prop :=
  match previous_size with
  | Inf => True
  | Fin m => ∃ S0, reduceProfiles self S0 = Ok S ∧ length S0 = m
  end.

(** ** A small backend for running examples

    It tries the point masses on the variables of the program and reports
    optimal when one of them satisfies every bound and constraint, and
    infeasible otherwise.  An optimal answer is always right. *)

Definition holdsb (val : pl.assignment) (c : pl.LpConstraint) : bool :=
  match pl.sense c with
  | pl.LpConstraintLE => Qle_bool (pl.eval val (pl.expr c)) 0
  | pl.LpConstraintEQ => Qeq_bool (pl.eval val (pl.expr c)) 0
  | pl.LpConstraintGE => Qle_bool 0 (pl.eval val (pl.expr c))
  end.

Definition in_boundsb (val : pl.assignment) (c : pl.LpConstraint) : bool :=
  forallb (λ t : pl.LpVariable * Q,
             Qle_bool (pl.lowBound t.1) (val (pl.name t.1))
             && Qle_bool (val (pl.name t.1)) (pl.upBound t.1))
          (pl.terms (pl.expr c)).

Definition satisfiesb (val : pl.assignment) (prob : pl.LpProblem) : bool :=
  forallb (λ c, in_boundsb val c && holdsb val c) (pl.constraints prob).

Definition variable_names (prob : pl.LpProblem) : list (list nat) :=
  pl.constraints prob ≫= λ c, (λ t : pl.LpVariable * Q, pl.name t.1) <$> pl.terms (pl.expr c).

Definition vertex_backend (prob : pl.LpProblem) : Z :=
  if existsb (λ t, satisfiesb (point_mass t) prob) (variable_names prob)
  then pl.LpStatusOptimal
  else pl.LpStatusInfeasible.

(** A backend that reports every program unbounded. *)
Definition unbounded_backend (prob : pl.LpProblem) : Z := pl.LpStatusUnbounded.

(** ** An example game: the prisoner's dilemma *)

(** Two players, two actions: U(0,0)=(3,3), U(0,1)=(0,5), U(1,0)=(5,0),
    U(1,1)=(1,1). *)
Definition pd_payoff (p : list nat) (i : nat) : Q :=
  match p, i with
  | [0; 0], _ => 3%Q
  | [0; 1], 0 => 0%Q
  | [0; 1], _ => 5%Q
  | [1; 0], 0 => 5%Q
  | [1; 0], _ => 0%Q
  | [1; 1], _ => 1%Q
  | _, _ => 0%Q
  end.

Definition pd_game : GameWrapper := mkGameWrapper 2 2 pd_payoff.

(** The two players, not linked. *)
Definition pd_isolated : nx.Graph := {[ 0 := []; 1 := [] ]}.

(** The two players, linked. *)
Definition pd_linked : nx.Graph := {[ 0 := [1]; 1 := [0] ]}.

(** Three isolated nodes for a two-player game. *)
Definition pd_three_nodes : nx.Graph := {[ 0 := []; 1 := []; 7 := [] ]}.

Definition pd_profiles : list (list nat) := [[0; 0]; [0; 1]; [1; 0]; [1; 1]].

Definition pd_solver (G : nx.Graph) : PotluckSolver :=
  mkPotluckSolver pd_game vertex_backend pd_profiles G.

Definition pd_unbounded : PotluckSolver :=
  mkPotluckSolver pd_game unbounded_backend pd_profiles pd_isolated.

(** The support of player 0 when nothing is known about player 1. *)
Definition pd_support : gset (list nat) := {[ [0]; [1] ]}.

(** Player 0 with a self-loop. *)
Definition pd_self_loop : nx.Graph := {[ 0 := [0]; 1 := [] ]}.

(** One player without any action. *)
Definition no_action_solver : PotluckSolver :=
  mkPotluckSolver (mkGameWrapper 0 1 (λ _ _, 0%Q)) vertex_backend [] {[ 0 := [] ]}.

(** ** Pure Nash equilibria and complete networks *)

(** No player gains by changing its own action at [p]. *)
Definition nash (gw : GameWrapper) (p : list nat) : Prop :=
  ∀ player a, player < numPlayers gw → a < numActions gw →
    (game gw (<[player := a]> p) player <= game gw p player)%Q.

Definition nashb (gw : GameWrapper) (p : list nat) : bool :=
  forallb (λ player,
             forallb (λ a, Qle_bool (game gw (<[player := a]> p) player)
                                    (game gw p player))
                     (range (numActions gw)))
          (range (numPlayers gw)).

(** Every player is linked to every other player, and to nothing else. *)
Definition complete_network (self : PotluckSolver) : Prop :=
  ∀ i, i < numPlayers (gameWrapper self) →
    ∃ nbrs, network self !! i = Some nbrs
          ∧ ∀ j, j ∈ nbrs ↔ j < numPlayers (gameWrapper self) ∧ j ≠ i.

(** ** More example networks and an example interpreter state *)

(** Player 0 linked to a node that is not a player. *)
Definition pd_far_neighbour : nx.Graph := {[ 0 := [5]; 1 := [] ]}.

(** The first player is not a node. *)
Definition pd_missing_first : nx.Graph := {[ 1 := [] ]}.

(** The second player is not a node. *)
Definition pd_missing_second : nx.Graph := {[ 0 := [] ]}.

Module io_example.

Import Stdlib.Strings.String.

(** Two open files, at addresses 0 and 1, bound to [sys.stdout] and
    [sys.stderr]; the first holds text that was written and not flushed. *)
Definition start : pyio.interp :=
  pyio.mkInterp
    (λ h, pyio.mkFile false (if decide (h = 0) then ["pending"%string] else []) [])
    2 0 1.

Definition block : list pyio.stmt :=
  [pyio.print_out "Reduced from 4 to 1 profiles"%string;
   pyio.print_err "warning"%string].

End io_example.

(** * Part 3. Lemmas and theorems *)

(** ** The error monad and the Python primitives *)

Lemma bind_Ok {A B} (f : A → result B) (a : A) : (Ok a ≫= f) = f a.
Proof. reflexivity. Qed.

Lemma bind_Raise {A B} (f : A → result B) (e : exn) : (Raise e ≫= f) = Raise e.
Proof. reflexivity. Qed.

Lemma py_getitem_Some {A} (t : list A) i x : t !! i = Some x → py_getitem t i = Ok x.
Proof. unfold py_getitem. by intros ->. Qed.

Lemma py_getitem_lt {A} (t : list A) i :
  i < length t → ∃ x, t !! i = Some x ∧ py_getitem t i = Ok x.
Proof.
  intros Hlt. destruct (lookup_lt_is_Some_2 t i Hlt) as [x Hx].
  exists x. split; [done | by apply py_getitem_Some].
Qed.

Lemma mapM_Ok {A B} (f : A → result B) (g : A → B) (l : list A) :
  (∀ x, x ∈ l → f x = Ok (g x)) → mapM f l = Ok (g <$> l).
Proof.
  induction l as [|x l IH]; intros Hf; [done |].
  cbn. rewrite (Hf x) by left. cbn.
  rewrite IH; [done |]. intros y Hy. apply Hf. by right.
Qed.

Lemma same_action_Ok profile p i :
  i < length profile → i < length p →
  same_action profile p i = Ok (bool_decide (profile !! i = p !! i)).
Proof.
  intros H1 H2. unfold same_action.
  destruct (py_getitem_lt profile i H1) as (a & Ha & ->).
  destruct (py_getitem_lt p i H2) as (b & Hb & ->).
  cbn. rewrite Ha, Hb. unfold mret, result_ret. f_equal.
  apply bool_decide_ext. split; congruence.
Qed.

Lemma py_all_cons {A} (f : A → result bool) i it :
  py_all f (i :: it) = (b ← f i; if b : bool then py_all f it else Ok false).
Proof. reflexivity. Qed.

Lemma py_all_same_action profile p nbrs :
  (∀ i, i ∈ nbrs → i < length profile ∧ i < length p) →
  py_all (same_action profile p) nbrs = Ok (bool_decide (agrees profile nbrs p)).
Proof.
  induction nbrs as [|i nbrs IH]; intros Hlen.
  - reflexivity.
  - destruct (Hlen i) as [H1 H2]; [left |].
    rewrite py_all_cons, same_action_Ok, bind_Ok by done.
    destruct (decide (profile !! i = p !! i)) as [Hi|Hi].
    + rewrite (bool_decide_eq_true_2 _ Hi).
      rewrite IH by (intros j Hj; apply Hlen; by right).
      f_equal. apply bool_decide_ext. unfold agrees.
      rewrite Forall_cons. tauto.
    + rewrite (bool_decide_eq_false_2 _ Hi).
      symmetry. f_equal. apply bool_decide_eq_false_2.
      unfold agrees. rewrite Forall_cons. tauto.
Qed.

(** ** The consistency oracle *)

Section Consistency.

Variable self : PotluckSolver.

Lemma consistent_loop_Ok profile player nbrs todo acc :
  network self !! player = Some nbrs →
  (∀ i, i ∈ nbrs → i < length profile) →
  (∀ p i, p ∈ todo → i ∈ nbrs → i < length p) →
  consistent_loop self profile player todo acc
  = Ok (acc ∪ consistent_set profile nbrs player todo).
Proof.
  intros Hnb Hprof. revert acc.
  induction todo as [|p todo IH]; intros acc Hlen.
  - unfold consistent_set. rewrite filter_nil. cbn [consistent_loop].
    f_equal. set_solver.
  - cbn [consistent_loop]. unfold nx.neighbors. rewrite Hnb, bind_Ok.
    rewrite py_all_same_action, bind_Ok; cycle 1.
    { intros i Hi. split; [by apply Hprof | apply (Hlen p); [left | done]]. }
    unfold consistent_set. rewrite filter_cons.
    destruct (decide (agrees profile nbrs p)) as [Hag|Hag].
    + rewrite (bool_decide_eq_true_2 _ Hag).
      rewrite IH by (intros q i Hq; apply Hlen; by right).
      f_equal. unfold consistent_set. rewrite fmap_cons, list_to_set_cons.
      set_solver.
    + rewrite (bool_decide_eq_false_2 _ Hag).
      rewrite IH by (intros q i Hq; apply Hlen; by right).
      done.
Qed.

Lemma consistentStrategies_Ok profile player S nbrs :
  network self !! player = Some nbrs →
  (∀ i, i ∈ nbrs → i < length profile) →
  (∀ p i, p ∈ S → i ∈ nbrs → i < length p) →
  consistentStrategies self profile player S
  = Ok (consistent_set profile nbrs player S).
Proof.
  intros Hnb Hprof Hlen. unfold consistentStrategies.
  rewrite (consistent_loop_Ok _ _ nbrs) by done.
  f_equal. set_solver.
Qed.

Lemma elem_of_consistent_set profile nbrs player S t :
  t ∈ consistent_set profile nbrs player S ↔
  ∃ p, p ∈ S ∧ agrees profile nbrs p ∧ t = opponents p player.
Proof.
  unfold consistent_set. rewrite elem_of_list_to_set, list_elem_of_fmap.
  split.
  - intros (p & -> & Hp). apply list_elem_of_filter in Hp as [Hag Hp]. eauto.
  - intros (p & Hp & Hag & ->). exists p. split; [done |].
    apply list_elem_of_filter. done.
Qed.

End Consistency.

(** ** Filtering a list *)

Section Filter.

Context {A : Type} (P : A → Prop) `{!∀ x, Decision (P x)}.

Lemma filter_Forall_id (l : list A) : Forall P l → filter P l = l.
Proof.
  induction 1 as [|x l Hx _ IH]; [done |].
  by rewrite filter_cons_True, IH.
Qed.

(** A filter that keeps the length keeps the list. *)
Lemma filter_length_Forall (l : list A) :
  length (filter P l) = length l → Forall P l.
Proof.
  induction l as [|x l IH]; [constructor |].
  rewrite filter_cons. destruct (decide (P x)) as [Hx|Hx]; cbn.
  - intros Hlen. constructor; [done |]. apply IH. lia.
  - intros Hlen. pose proof (length_filter P l). lia.
Qed.

Lemma filter_length_id (l : list A) :
  length (filter P l) = length l → filter P l = l.
Proof. intros Hlen. by apply filter_Forall_id, filter_length_Forall. Qed.

(** A filter that drops exactly one position drops one value only. *)
Lemma filter_drops_one (l : list A) (a b : A) :
  length (filter P l) + 1 = length l →
  a ∈ l → b ∈ l → ¬ P a → ¬ P b → a = b.
Proof.
  induction l as [|x l IH]; [by intros _ ?%elem_of_nil |].
  rewrite filter_cons. destruct (decide (P x)) as [Hx|Hx]; cbn.
  - intros Hlen Ha Hb Hna Hnb.
    apply elem_of_cons in Ha as [->|Ha]; [done |].
    apply elem_of_cons in Hb as [->|Hb]; [done |].
    apply IH; [lia | done..].
  - intros Hlen Ha Hb Hna Hnb.
    assert (Hall : Forall P l) by (apply filter_length_Forall; lia).
    rewrite Forall_forall in Hall.
    apply elem_of_cons in Ha as [->|Ha]; [|by destruct Hna; apply Hall].
    apply elem_of_cons in Hb as [->|Hb]; [done |by destruct Hnb; apply Hall].
Qed.

End Filter.

(** ** Opponent tuples *)

Lemma opponents_lookup_lt (p : list nat) player i :
  i < player → opponents p player !! i = p !! i.
Proof.
  intros Hi. unfold opponents.
  destruct (decide (i < length p)) as [Hlt|Hge].
  - rewrite lookup_app_l by (rewrite length_take; lia).
    by rewrite lookup_take_lt.
  - rewrite (lookup_ge_None_2 p i) by lia.
    apply lookup_ge_None_2. rewrite length_app, length_take, length_drop. lia.
Qed.

Lemma opponents_lookup_ge (p : list nat) player i :
  player ≤ i → opponents p player !! i = p !! S i.
Proof.
  intros Hi. unfold opponents.
  destruct (decide (S i < length p)) as [Hlt|Hge].
  - rewrite lookup_app_r by (rewrite length_take; lia).
    rewrite length_take, lookup_drop. f_equal. lia.
  - rewrite (lookup_ge_None_2 p (S i)) by lia.
    apply lookup_ge_None_2. rewrite length_app, length_take, length_drop. lia.
Qed.

(** Two profiles of one length with the same opponent tuple differ at most
    in the player's own action. *)
Lemma opponents_eq_lookup (p q : list nat) player i :
  opponents p player = opponents q player → i ≠ player → p !! i = q !! i.
Proof.
  intros Heq Hne. destruct (decide (i < player)) as [Hlt|Hge].
  - rewrite <- (opponents_lookup_lt p player i), <- (opponents_lookup_lt q player i) by done.
    by rewrite Heq.
  - destruct i as [|i]; [lia |].
    rewrite <- (opponents_lookup_ge p player i), <- (opponents_lookup_ge q player i) by lia.
    by rewrite Heq.
Qed.

Lemma agrees_refl profile nbrs : agrees profile nbrs profile.
Proof. unfold agrees. by apply Forall_forall. Qed.

Lemma agrees_nil profile p : agrees profile [] p.
Proof. constructor. Qed.

(** Agreement only looks at the neighbours' coordinates, so it passes
    between profiles with the same opponent tuple when the player is not
    its own neighbour. *)
Lemma agrees_opponents profile nbrs player p q :
  player ∉ nbrs → opponents p player = opponents q player →
  agrees profile nbrs p → agrees profile nbrs q.
Proof.
  unfold agrees. rewrite !Forall_forall. intros Hself Heq Hp i Hi.
  rewrite (Hp i Hi). apply (opponents_eq_lookup p q player); [done |].
  intros ->. done.
Qed.

Section ConsistencyClaims.

Variable self : PotluckSolver.
Let n := numPlayers (gameWrapper self).

(** C5. For a reference profile, a player and a candidate list, all with
    one action per player, and a player whose neighbours are players other
    than itself: [consistentStrategies] returns a set that contains the
    opponent tuple of a candidate [p] if and only if [p] shows the
    reference profile's action at every neighbour of the player; the set
    holds nothing but opponent tuples of candidates; and when the player
    has no neighbour it is the projection of the whole candidate list. *)
Theorem consistentStrategies_spec profile player S nbrs :
  length profile = n →
  wf_profiles self S →
  network self !! player = Some nbrs →
  (∀ i, i ∈ nbrs → i < n) →
  player ∉ nbrs →
  ∃ c, consistentStrategies self profile player S = Ok c
     ∧ (∀ p, p ∈ S →
          (opponents p player ∈ c ↔ ∀ i, i ∈ nbrs → p !! i = profile !! i))
     ∧ (∀ t, t ∈ c → ∃ p, p ∈ S ∧ t = opponents p player)
     ∧ (nbrs = [] → c = list_to_set ((λ p, opponents p player) <$> S)).
Proof.
  intros Hprof HS Hnb Hrange Hself.
  exists (consistent_set profile nbrs player S). split; [|split; [|split]].
  - apply consistentStrategies_Ok; [done | |].
    + intros i Hi. rewrite Hprof. by apply Hrange.
    + intros p i Hp Hi. rewrite (HS p Hp). by apply Hrange.
  - intros p Hp. rewrite elem_of_consistent_set. split.
    + intros (q & Hq & Hag & Heq) i Hi.
      apply (agrees_opponents profile nbrs player q p) in Hag; [|done..].
      unfold agrees in Hag. rewrite Forall_forall in Hag.
      symmetry. by apply Hag.
    + intros Hag. exists p. split; [done |]. split; [|done].
      unfold agrees. apply Forall_forall. intros i Hi. symmetry. by apply Hag.
  - intros t Ht. apply elem_of_consistent_set in Ht as (p & Hp & _ & ->). eauto.
  - intros ->. unfold consistent_set. f_equal. f_equal.
    apply filter_Forall_id, Forall_forall. intros p _. apply agrees_nil.
Qed.

(** C10. Inside [reduceProfiles] the support is never empty: for a
    profile taken from the round's candidate list and a player of the
    game, [consistentStrategies] returns a set that contains the profile's
    own opponent tuple. *)
Theorem own_opponents_consistent profile player S :
  wf_profiles self S →
  wf_network self →
  profile ∈ S →
  player < n →
  ∃ c, consistentStrategies self profile player S = Ok c
     ∧ opponents profile player ∈ c
     ∧ c ≠ ∅.
Proof.
  intros HS Hnet Hin Hpl.
  destruct (Hnet player Hpl) as (nbrs & Hnb & Hrange).
  exists (consistent_set profile nbrs player S).
  assert (Hmem : opponents profile player ∈ consistent_set profile nbrs player S).
  { apply elem_of_consistent_set. exists profile.
    split; [done |]. split; [apply agrees_refl | done]. }
  split; [|split; [done | set_solver]].
  apply consistentStrategies_Ok; [done | |].
  - intros i Hi. rewrite (HS profile Hin). by apply Hrange.
  - intros p i Hp Hi. rewrite (HS p Hp). by apply Hrange.
Qed.

End ConsistencyClaims.

(** ** Sums of rationals *)

Lemma Qsum_cons x l : Qsum (x :: l) = (x + Qsum l)%Q.
Proof. reflexivity. Qed.

Lemma Qsum_app l1 l2 : (Qsum (l1 ++ l2) == Qsum l1 + Qsum l2)%Q.
Proof.
  induction l1 as [|x l1 IH].
  - rewrite app_nil_l. unfold Qsum at 2. cbn [foldr]. ring.
  - rewrite <- app_comm_cons, !Qsum_cons, IH. ring.
Qed.

Lemma Qsum_ext {A} (f g : A → Q) (l : list A) :
  (∀ x, x ∈ l → (f x == g x)%Q) → (Qsum (f <$> l) == Qsum (g <$> l))%Q.
Proof.
  induction l as [|x l IH]; intros Hfg; [reflexivity |].
  rewrite !fmap_cons, !Qsum_cons.
  rewrite (Hfg x) by left. rewrite IH; [reflexivity |].
  intros y Hy. apply Hfg. by right.
Qed.

(** ** The linear program of [checkBestResponse] *)

Section LinearProgram.

Import pl.

Lemma eval_terms_cons val t l :
  eval_terms val (t :: l) = (t.2 * val (name t.1) + eval_terms val l)%Q.
Proof. reflexivity. Qed.

Lemma eval_terms_app val l1 l2 :
  (eval_terms val (l1 ++ l2) == eval_terms val l1 + eval_terms val l2)%Q.
Proof.
  induction l1 as [|t l1 IH].
  - rewrite app_nil_l. unfold eval_terms at 2. cbn [foldr]. ring.
  - rewrite <- app_comm_cons, !eval_terms_cons, IH. ring.
Qed.

Lemma eval_terms_scale val k l :
  (eval_terms val ((λ t : LpVariable * Q, (t.1, (k * t.2)%Q)) <$> l)
   == k * eval_terms val l)%Q.
Proof.
  induction l as [|t l IH].
  - unfold eval_terms. cbn [fmap list_fmap foldr]. ring.
  - rewrite fmap_cons, !eval_terms_cons, IH. cbn [fst snd]. ring.
Qed.

Lemma eval_aff_add val e1 e2 :
  (eval val (aff_add e1 e2) == eval val e1 + eval val e2)%Q.
Proof.
  unfold eval, aff_add. cbn [terms constant]. rewrite eval_terms_app. ring.
Qed.

Lemma eval_aff_scale val k e :
  (eval val (aff_scale k e) == k * eval val e)%Q.
Proof.
  unfold eval, aff_scale. cbn [terms constant]. rewrite eval_terms_scale. ring.
Qed.

Lemma eval_aff_sub val e1 e2 :
  (eval val (aff_sub e1 e2) == eval val e1 - eval val e2)%Q.
Proof. unfold aff_sub. rewrite eval_aff_add, eval_aff_scale. ring. Qed.

Lemma eval_aff_const val q : (eval val (aff_const q) == q)%Q.
Proof. unfold eval, aff_const, eval_terms. cbn [terms constant foldr]. ring. Qed.

Lemma eval_of_var val v : (eval val (of_var v) == val (name v))%Q.
Proof.
  unfold eval, of_var, eval_terms. cbn [terms constant foldr fst snd]. ring.
Qed.

Lemma eval_pyadd val x y :
  (eval val (to_aff (pyadd x y)) == eval val (to_aff x) + eval val (to_aff y))%Q.
Proof.
  destruct x, y; cbn [pyadd to_aff]; rewrite ?eval_aff_add, ?eval_aff_const;
    reflexivity.
Qed.

Lemma eval_fold_pyadd val xs acc :
  (eval val (to_aff (fold_left pyadd xs acc))
   == eval val (to_aff acc) + Qsum ((λ x, eval val (to_aff x)) <$> xs))%Q.
Proof.
  revert acc. induction xs as [|x xs IH]; intros acc.
  - unfold Qsum. cbn [fold_left fmap list_fmap foldr]. ring.
  - cbn [fold_left]. rewrite fmap_cons, Qsum_cons, IH, eval_pyadd. ring.
Qed.

Lemma eval_pysum val xs :
  (eval val (to_aff (pysum xs)) == Qsum ((λ x, eval val (to_aff x)) <$> xs))%Q.
Proof.
  unfold pysum. rewrite eval_fold_pyadd. cbn [to_aff].
  rewrite eval_aff_const. ring.
Qed.

Lemma eval_pymul_var val v k :
  (eval val (to_aff (pymul (Var v) k)) == val (name v) * k)%Q.
Proof. cbn [pymul to_aff]. rewrite eval_aff_scale, eval_of_var. ring. Qed.

(** *** Which values are expressions *)

Lemma is_num_pyadd_r x y : is_num y = false → is_num (pyadd x y) = false.
Proof. destruct x, y; done. Qed.

Lemma is_num_pyadd_l x y : is_num x = false → is_num (pyadd x y) = false.
Proof. destruct x, y; done. Qed.

Lemma is_num_fold_pyadd xs acc :
  is_num acc = false → is_num (fold_left pyadd xs acc) = false.
Proof.
  revert acc. induction xs as [|x xs IH]; intros acc Hacc; [done |].
  cbn [fold_left]. apply IH. by apply is_num_pyadd_l.
Qed.

Lemma is_num_pysum xs :
  xs ≠ [] → Forall (λ x, is_num x = false) xs → is_num (pysum xs) = false.
Proof.
  destruct xs as [|x xs]; [done |]. intros _ Hall.
  apply Forall_cons in Hall as [Hx _].
  unfold pysum. cbn [fold_left]. apply is_num_fold_pyadd. by apply is_num_pyadd_r.
Qed.

Lemma pyeq_expr x y :
  is_num x = false →
  pyeq x y = Constr (mkLpConstraint (aff_sub (to_aff x) (to_aff y)) LpConstraintEQ).
Proof. destruct x; done. Qed.

Lemma pyle_expr x y :
  is_num x = false →
  pyle x y = Constr (mkLpConstraint (aff_sub (to_aff x) (to_aff y)) LpConstraintLE).
Proof. destruct x; done. Qed.

(** *** The variables of the expressions *)

Lemma vars_aff_add e1 e2 : vars (aff_add e1 e2) = vars e1 ++ vars e2.
Proof. unfold vars, aff_add. cbn. by rewrite fmap_app. Qed.

Lemma vars_aff_scale k e : vars (aff_scale k e) = vars e.
Proof.
  unfold vars, aff_scale. cbn. rewrite <- list_fmap_compose.
  by apply list_fmap_ext.
Qed.

Lemma vars_aff_sub e1 e2 : vars (aff_sub e1 e2) = vars e1 ++ vars e2.
Proof. unfold aff_sub. by rewrite vars_aff_add, vars_aff_scale. Qed.

Lemma vars_pyadd x y : vars (to_aff (pyadd x y)) = vars (to_aff x) ++ vars (to_aff y).
Proof. destruct x, y; cbn [pyadd to_aff]; by rewrite ?vars_aff_add. Qed.

Lemma vars_fold_pyadd xs acc :
  vars (to_aff (fold_left pyadd xs acc))
  = vars (to_aff acc) ++ (xs ≫= λ x, vars (to_aff x)).
Proof.
  revert acc. induction xs as [|x xs IH]; intros acc.
  - cbn [fold_left]. change ([] ≫= _) with (@nil LpVariable). by rewrite app_nil_r.
  - cbn [fold_left]. by rewrite IH, vars_pyadd, bind_cons, <- app_assoc.
Qed.

Lemma vars_pysum xs : vars (to_aff (pysum xs)) = xs ≫= λ x, vars (to_aff x).
Proof. unfold pysum. by rewrite vars_fold_pyadd. Qed.

Lemma in_bounds_vars val c :
  in_bounds val c ↔
  ∀ v, v ∈ vars (expr c) →
    (lowBound v <= val (name v))%Q ∧ (val (name v) <= upBound v)%Q.
Proof.
  unfold in_bounds, vars. split.
  - intros H v Hv. apply list_elem_of_fmap in Hv as (t & -> & Ht). by apply H.
  - intros H t Ht. apply H. apply list_elem_of_fmap. eauto.
Qed.

End LinearProgram.

Lemma fmap_seq_lookup_total {A B} `{!Inhabited A} (f : A → B) (l : list A) :
  (λ j, f (l !!! j)) <$> seq 0 (length l) = f <$> l.
Proof.
  apply list_eq. intros i. rewrite !list_lookup_fmap.
  destruct (decide (i < length l)) as [Hlt|Hge].
  - rewrite lookup_seq_lt by done.
    destruct (lookup_lt_is_Some_2 l i Hlt) as [x Hx].
    rewrite Hx. cbn. by rewrite (list_lookup_total_correct l i x).
  - rewrite lookup_seq_ge by lia. by rewrite lookup_ge_None_2 by lia.
Qed.

Section BestResponseLP.

Import pl.

Variable self : PotluckSolver.
Let gw := gameWrapper self.

Lemma utility_terms_Ok oc player action :
  utility_terms self (lp_variable <$> oc) oc player (Ok action)
  = Ok (weighted self player action oc).
Proof.
  unfold utility_terms, weighted. rewrite length_fmap.
  rewrite (mapM_Ok _
    (λ j, pymul (Var (lp_variable (oc !!! j)))
            (game gw (with_action (oc !!! j) player action) player))).
  - f_equal. unfold range.
    apply (fmap_seq_lookup_total
             (λ t, pymul (Var (lp_variable t))
                     (game gw (with_action t player action) player))).
  - intros j Hj. apply elem_of_seq in Hj as [_ Hj]. cbn in Hj.
    destruct (lookup_lt_is_Some_2 oc j Hj) as [t Ht].
    rewrite (py_getitem_Some (lp_variable <$> oc) j (lp_variable t))
      by (by rewrite list_lookup_fmap, Ht).
    rewrite (py_getitem_Some oc j t) by done.
    by rewrite (list_lookup_total_correct oc j t).
Qed.

Lemma utility_terms_Raise oc player e :
  oc ≠ [] → utility_terms self (lp_variable <$> oc) oc player (Raise e) = Raise e.
Proof.
  destruct oc as [|t oc]; [done |]. intros _. reflexivity.
Qed.

Lemma weighted_not_num player action oc :
  Forall (λ x, is_num x = false) (weighted self player action oc).
Proof. unfold weighted. apply Forall_fmap, Forall_forall. done. Qed.

Lemma weighted_nonempty player action oc : oc ≠ [] → weighted self player action oc ≠ [].
Proof. by destruct oc. Qed.

Lemma constraints_loop_Ok oc player action_utility actions prob :
  oc ≠ [] →
  constraints_loop self (lp_variable <$> oc) oc player action_utility actions prob
  = Ok (mkLpProblem (objective prob)
          (constraints prob ++
           ((λ a, mkLpConstraint
                    (aff_sub (to_aff (pysum (weighted self player a oc)))
                             (to_aff action_utility))
                    LpConstraintLE) <$> actions))).
Proof.
  intros Hne. revert prob.
  induction actions as [|a actions IH]; intros prob.
  - cbn [constraints_loop fmap list_fmap]. rewrite app_nil_r. by destruct prob.
  - cbn [constraints_loop]. rewrite utility_terms_Ok, bind_Ok.
    rewrite pyle_expr
      by (apply is_num_pysum; [by apply weighted_nonempty | apply weighted_not_num]).
    cbn [iadd]. rewrite bind_Ok, IH. cbn [objective constraints].
    by rewrite fmap_cons, <- app_assoc.
Qed.

Lemma bestResponseLP_Ok profile player consistent fixed :
  consistent ≠ ∅ →
  profile !! player = Some fixed →
  bestResponseLP self profile player consistent
  = Ok (best_response_program self player fixed (elements consistent)).
Proof.
  intros Hne Hfixed.
  assert (Hoc : elements consistent ≠ []).
  { intros Hnil. apply Hne. by apply elements_empty_inv in Hnil as ->%leibniz_equiv. }
  unfold bestResponseLP.
  change (λ p, mkLpVariable p 0%Q 1%Q) with lp_variable.
  rewrite pyeq_expr; cycle 1.
  { apply is_num_pysum.
    - by destruct (elements consistent).
    - apply Forall_fmap, Forall_forall. done. }
  cbn [iadd]. rewrite bind_Ok.
  rewrite (py_getitem_Some profile player fixed Hfixed).
  rewrite utility_terms_Ok, bind_Ok.
  rewrite constraints_loop_Ok by done.
  reflexivity.
Qed.

(** With an empty support [sum(variables) == 1] is the Python value
    [False], which [prob += ...] refuses. *)
Lemma bestResponseLP_empty profile player :
  bestResponseLP self profile player ∅ = Raise TypeError.
Proof. reflexivity. Qed.

End BestResponseLP.

Section Feasibility.

Import pl.

Variable self : PotluckSolver.
Let gw := gameWrapper self.

Lemma eval_sum_variables val oc :
  (eval val (to_aff (pysum (Var <$> (lp_variable <$> oc)))) == Qsum (val <$> oc))%Q.
Proof.
  rewrite eval_pysum, <- !list_fmap_compose.
  apply Qsum_ext. intros t _. cbn [compose to_aff]. apply eval_of_var.
Qed.

Lemma eval_weighted val player action oc :
  (eval val (to_aff (pysum (weighted self player action oc)))
   == Qsum ((λ t, val t * game gw (with_action t player action) player)%Q <$> oc))%Q.
Proof.
  unfold weighted. rewrite eval_pysum, <- !list_fmap_compose.
  apply Qsum_ext. intros t _. unfold compose. apply eval_pymul_var.
Qed.

Lemma vars_sum_variables oc :
  vars (to_aff (pysum (Var <$> (lp_variable <$> oc)))) = lp_variable <$> oc.
Proof.
  rewrite vars_pysum. induction oc as [|t oc IH]; [done |].
  rewrite !fmap_cons, bind_cons, IH. reflexivity.
Qed.

Lemma vars_weighted player action oc :
  vars (to_aff (pysum (weighted self player action oc))) = lp_variable <$> oc.
Proof.
  rewrite vars_pysum. unfold weighted. induction oc as [|t oc IH]; [done |].
  rewrite !fmap_cons, bind_cons, IH. reflexivity.
Qed.

Lemma in_bounds_sum_constraint val oc :
  in_bounds val (sum_constraint oc) ↔
  ∀ t, t ∈ oc → (0 <= val t)%Q ∧ (val t <= 1)%Q.
Proof.
  rewrite in_bounds_vars. unfold sum_constraint. cbn [expr].
  rewrite vars_aff_sub, vars_sum_variables.
  change (vars (to_aff (Num 1%Q))) with (@nil LpVariable).
  rewrite app_nil_r. split.
  - intros H t Ht. apply (H (lp_variable t)). apply list_elem_of_fmap. eauto.
  - intros H v Hv. apply list_elem_of_fmap in Hv as (t & -> & Ht). by apply H.
Qed.

Lemma in_bounds_action_constraint val player fixed oc a :
  (∀ t, t ∈ oc → (0 <= val t)%Q ∧ (val t <= 1)%Q) →
  in_bounds val (action_constraint self player fixed oc a).
Proof.
  intros H. rewrite in_bounds_vars. unfold action_constraint. cbn [expr].
  rewrite vars_aff_sub, !vars_weighted. intros v Hv.
  apply elem_of_app in Hv as [Hv|Hv];
    apply list_elem_of_fmap in Hv as (t & -> & Ht); by apply H.
Qed.

Lemma holds_sum_constraint val oc :
  holds val (sum_constraint oc) ↔ (Qsum (val <$> oc) == 1)%Q.
Proof.
  unfold holds, sum_constraint. cbn [sense expr].
  rewrite eval_aff_sub, eval_sum_variables. cbn [to_aff].
  rewrite eval_aff_const. split; intros H; lra.
Qed.

Lemma holds_action_constraint val player fixed oc a :
  holds val (action_constraint self player fixed oc a) ↔
  (Qsum ((λ t, val t * game gw (with_action t player a) player)%Q <$> oc)
   <= Qsum ((λ t, val t * game gw (with_action t player fixed) player)%Q <$> oc))%Q.
Proof.
  unfold holds, action_constraint. cbn [sense expr].
  rewrite eval_aff_sub, !eval_weighted. split; intros H; lra.
Qed.

(** The program of [checkBestResponse] has a feasible point exactly when
    some conjecture over the support makes the fixed action a best
    response. *)
Lemma best_response_program_feasible player fixed support :
  feasible (best_response_program self player fixed (elements support)) ↔
  ∃ w, conjecture w support ∧ best_response gw w support player fixed.
Proof.
  unfold feasible, best_response_program. cbn [constraints]. split.
  - intros (val & Hval). exists val. split; [split |].
    + intros t Ht.
      destruct (Hval (sum_constraint (elements support))) as [Hb _]; [left |].
      rewrite in_bounds_sum_constraint in Hb. apply Hb. by apply elem_of_elements.
    + destruct (Hval (sum_constraint (elements support))) as [_ Hs]; [left |].
      by apply holds_sum_constraint.
    + intros a Ha. unfold expected_utility.
      apply holds_action_constraint. apply Hval. right.
      apply list_elem_of_fmap. exists a. split; [done |].
      apply elem_of_seq. unfold gw in *. lia.
  - intros (w & [Hb Hs] & Hbr). exists w. intros c Hc.
    assert (Hb' : ∀ t, t ∈ elements support → (0 <= w t)%Q ∧ (w t <= 1)%Q).
    { intros t Ht. apply Hb. by apply elem_of_elements. }
    apply elem_of_cons in Hc as [->|Hc].
    + split; [by apply in_bounds_sum_constraint | by apply holds_sum_constraint].
    + apply list_elem_of_fmap in Hc as (a & -> & Ha).
      apply elem_of_seq in Ha as [_ Ha]. cbn in Ha.
      split; [by apply in_bounds_action_constraint |].
      apply holds_action_constraint. by apply Hbr.
Qed.

(** No conjecture lives on an empty support. *)
Lemma conjecture_empty w : ¬ conjecture w ∅.
Proof.
  intros [_ Hs]. rewrite elements_empty in Hs.
  unfold Qsum in Hs. cbn [fmap list_fmap foldr] in Hs. lra.
Qed.

End Feasibility.

(** ** The feasibility checker *)

Section Checker.

Variable self : PotluckSolver.
Let gw := gameWrapper self.

Lemma checkBestResponse_program profile player consistent fixed :
  consistent ≠ ∅ →
  profile !! player = Some fixed →
  checkBestResponse self profile player consistent
  = Ok (negb (solver self (best_response_program self player fixed (elements consistent))
              =? pl.LpStatusInfeasible)%Z).
Proof.
  intros Hne Hfixed. unfold checkBestResponse.
  rewrite (bestResponseLP_Ok self profile player consistent fixed Hne Hfixed), bind_Ok.
  unfold pl.LpStatusInfeasible. by destruct (_ =? _)%Z.
Qed.

Lemma checkBestResponse_empty profile player :
  checkBestResponse self profile player ∅ = Raise TypeError.
Proof. reflexivity. Qed.

(** C1. Let the fixed action be [profile[player]] and let the backend
    answer the program built for this call exactly.  Then
    [checkBestResponse] returns [True] if and only if some probability
    distribution over the support (weights in [0,1] that sum to 1) gives no
    action of the player a higher expected utility than the fixed action;
    and on a non-empty support it returns [False] if and only if there is
    no such distribution. *)
Theorem checkBestResponse_iff_conjecture profile player consistent fixed :
  profile !! player = Some fixed →
  (∀ prob, bestResponseLP self profile player consistent = Ok prob →
           solver_exact_on self prob) →
  (checkBestResponse self profile player consistent = Ok true ↔
   ∃ w, conjecture w consistent ∧ best_response gw w consistent player fixed)
  ∧ (consistent ≠ ∅ →
     (checkBestResponse self profile player consistent = Ok false ↔
      ¬ ∃ w, conjecture w consistent ∧ best_response gw w consistent player fixed)).
Proof.
  intros Hfixed Hexact.
  destruct (decide (consistent = ∅)) as [->|Hne].
  - split; [|done]. rewrite checkBestResponse_empty. split; [done |].
    intros (w & Hw & _). by apply conjecture_empty in Hw.
  - specialize (Hexact _ (bestResponseLP_Ok self profile player consistent fixed Hne Hfixed)).
    unfold solver_exact_on in Hexact.
    rewrite (best_response_program_feasible self) in Hexact. fold gw in Hexact.
    rewrite (checkBestResponse_program profile player consistent fixed Hne Hfixed).
    destruct (Z.eqb_spec
                (solver self (best_response_program self player fixed (elements consistent)))
                pl.LpStatusInfeasible) as [Heq|Hneq]; cbn [negb].
    + split; [|intros _].
      * split; [done |]. intros Hw. by apply Hexact in Hw.
      * split; [|done]. intros _ Hw. by apply Hexact in Hw.
    + split; [|intros _].
      * split; [intros _; by apply Hexact | done].
      * split; [done |]. intros Hno. destruct Hno. by apply Hexact.
Qed.

(** C3 (the code departs from the claim). On an empty support
    [checkBestResponse] does not report infeasible: it raises [TypeError],
    whatever the profile, the player and the backend. *)
Theorem checkBestResponse_empty_support_raises profile player :
  checkBestResponse self profile player ∅ = Raise TypeError
  ∧ checkBestResponse self profile player ∅ ≠ Ok false.
Proof. by rewrite checkBestResponse_empty. Qed.

(** C4, as amended. On a non-empty support and an existing fixed action
    [checkBestResponse] always returns: [False] exactly when the backend's
    status is infeasible (-1) and [True] for every other status, optimal,
    not solved, unbounded and undefined alike; no status is turned into an
    exception. *)
Theorem checkBestResponse_status profile player consistent fixed :
  consistent ≠ ∅ →
  profile !! player = Some fixed →
  let status :=
    solver self (best_response_program self player fixed (elements consistent)) in
  (checkBestResponse self profile player consistent = Ok false ↔
   status = pl.LpStatusInfeasible)
  ∧ (checkBestResponse self profile player consistent = Ok true ↔
     status ≠ pl.LpStatusInfeasible).
Proof.
  intros Hne Hfixed status.
  rewrite (checkBestResponse_program profile player consistent fixed Hne Hfixed).
  fold status. destruct (Z.eqb_spec status pl.LpStatusInfeasible); cbn [negb];
    split; split; done.
Qed.

End Checker.

(** ** The reduction operator *)

Lemma sublist_length_eq {A} (l1 l2 : list A) :
  l1 `sublist_of` l2 → length l2 ≤ length l1 → l1 = l2.
Proof.
  induction 1 as [|x l1 l2 _ IH|x l1 l2 Hsub _]; cbn; intros Hlen.
  - done.
  - f_equal. apply IH. lia.
  - apply sublist_length in Hsub. lia.
Qed.

Section Reduction.

Variable self : PotluckSolver.
Let n := numPlayers (gameWrapper self).

(** The support of a profile of the round's list contains the profile's
    own opponent tuple. *)
Lemma own_support profile player S :
  wf_profiles self S → wf_network self → profile ∈ S → player < n →
  ∃ c, consistentStrategies self profile player S = Ok c
     ∧ opponents profile player ∈ c.
Proof.
  intros HS Hnet Hin Hpl.
  destruct (Hnet player Hpl) as (nbrs & Hnb & Hrange).
  exists (consistent_set profile nbrs player S). split.
  - apply consistentStrategies_Ok; [done | |].
    + intros i Hi. rewrite (HS profile Hin). by apply Hrange.
    + intros p i Hp Hi. rewrite (HS p Hp). by apply Hrange.
  - apply elem_of_consistent_set. exists profile.
    split; [done |]. split; [apply agrees_refl | done].
Qed.

(** Inside a round neither the oracle nor the checker raises. *)
Lemma round_check_returns profile player S :
  wf_profiles self S → wf_network self → profile ∈ S → player < n →
  ∃ c b, consistentStrategies self profile player S = Ok c
       ∧ checkBestResponse self profile player c = Ok b.
Proof.
  intros HS Hnet Hin Hpl.
  destruct (own_support profile player S HS Hnet Hin Hpl) as (c & Hc & Hown).
  assert (Hlt : player < length profile) by (rewrite (HS profile Hin); done).
  destruct (lookup_lt_is_Some_2 profile player Hlt) as [fixed Hfixed].
  exists c. eexists. split; [done |].
  apply (checkBestResponse_program self profile player c fixed); [set_solver | done].
Qed.

Lemma passes_true S profile player :
  passes self S profile player = true ↔
  ∃ c, consistentStrategies self profile player S = Ok c
     ∧ checkBestResponse self profile player c = Ok true.
Proof.
  unfold passes. split.
  - destruct (consistentStrategies self profile player S) as [c|]; [|done].
    destruct (checkBestResponse self profile player c) as [[|]|] eqn:Hb;
      try done.
    intros _. eauto.
  - intros (c & -> & ->). done.
Qed.

Lemma survivesb_true S profile : survivesb self S profile = true ↔ survives self S profile.
Proof.
  unfold survivesb, survives. rewrite forallb_forall. split.
  - intros H player Hpl. apply passes_true, H.
    apply list_elem_of_In, elem_of_seq. lia.
  - intros H player Hpl. apply passes_true, H.
    apply list_elem_of_In, elem_of_seq in Hpl. lia.
Qed.

Lemma players_loop_Ok profile S players :
  (∀ player, player ∈ players →
     ∃ c b, consistentStrategies self profile player S = Ok c
          ∧ checkBestResponse self profile player c = Ok b) →
  players_loop self profile S players = Ok (forallb (passes self S profile) players).
Proof.
  induction players as [|player players IH]; intros Hret; [done |].
  destruct (Hret player) as (c & b & Hc & Hb); [left |].
  cbn [players_loop forallb]. unfold passes at 1.
  rewrite Hc, bind_Ok, Hb, bind_Ok. destruct b; [|done].
  cbn [andb]. apply IH. intros q Hq. apply Hret. by right.
Qed.

Lemma reduce_loop_Ok S todo reducedProfiles :
  wf_profiles self S → wf_network self → todo ⊆ S →
  reduce_loop self S todo reducedProfiles
  = Ok (reducedProfiles ++ filter (λ p, survivesb self S p = true) todo).
Proof.
  intros HS Hnet. revert reducedProfiles.
  induction todo as [|profile todo IH]; intros acc Hsub.
  - cbn [reduce_loop]. by rewrite filter_nil, app_nil_r.
  - cbn [reduce_loop]. rewrite players_loop_Ok, bind_Ok; cycle 1.
    { intros player Hpl. apply elem_of_seq in Hpl.
      apply round_check_returns; [done | done | | unfold n; lia].
      apply Hsub. left. }
    fold (survivesb self S profile).
    rewrite IH by (intros q Hq; apply Hsub; by right).
    rewrite filter_cons. destruct (survivesb self S profile) eqn:Hs.
    + rewrite decide_True by done. by rewrite <- app_assoc.
    + rewrite decide_False by done. done.
Qed.

Lemma reduceProfiles_Ok S :
  wf_profiles self S → wf_network self →
  reduceProfiles self S = Ok (filter (λ p, survivesb self S p = true) S).
Proof.
  intros HS Hnet. unfold reduceProfiles.
  by rewrite reduce_loop_Ok.
Qed.

(** Whatever the inputs, a round that completes only drops profiles. *)
Lemma reduce_loop_sublist S todo reducedProfiles R :
  reduce_loop self S todo reducedProfiles = Ok R →
  ∃ kept, R = reducedProfiles ++ kept ∧ kept `sublist_of` todo.
Proof.
  revert reducedProfiles.
  induction todo as [|profile todo IH]; intros acc; cbn [reduce_loop].
  - intros [= <-]. exists []. by rewrite app_nil_r.
  - destruct (players_loop self profile S _) as [clear|e]; [|done].
    rewrite bind_Ok. intros HR. apply IH in HR as (kept & -> & Hsub).
    destruct clear.
    + exists (profile :: kept). rewrite <- app_assoc. split; [done |].
      by apply sublist_skip.
    + exists kept. split; [done |]. by apply sublist_cons.
Qed.

Lemma reduceProfiles_sublist S R :
  reduceProfiles self S = Ok R → R `sublist_of` S.
Proof.
  unfold reduceProfiles. intros HR.
  by apply reduce_loop_sublist in HR as (kept & -> & Hsub).
Qed.

(** C2. On a candidate list with one action per player and a network
    whose nodes cover the players, [reduceProfiles] returns the input list
    filtered, in order, by: for every player, the feasibility check on the
    consistent support of that player, computed against the same input
    list, returns [True]. *)
Theorem reduceProfiles_spec S :
  wf_profiles self S →
  wf_network self →
  ∃ R, reduceProfiles self S = Ok R
     ∧ R = filter (λ p, survivesb self S p = true) S
     ∧ ∀ profile, profile ∈ R ↔ profile ∈ S ∧ survives self S profile.
Proof.
  intros HS Hnet. eexists. split; [by apply reduceProfiles_Ok |].
  split; [done |]. intros profile.
  rewrite list_elem_of_filter, survivesb_true. tauto.
Qed.

(** C6. A round never adds a profile: the list [reduceProfiles] returns
    is a sub-list of its input, so it is included in it and no longer; and
    along the rounds the candidate list after round [k+1] is included in,
    and no longer than, the list after round [k]. *)
Theorem reduceProfiles_shrinks S R :
  reduceProfiles self S = Ok R →
  R `sublist_of` S ∧ R ⊆ S ∧ length R ≤ length S
  ∧ ∀ k A B, candidates_after self k S = Ok A → candidates_after self (k + 1) S = Ok B →
             B ⊆ A ∧ length B ≤ length A.
Proof.
  intros HR. pose proof (reduceProfiles_sublist S R HR) as Hsub.
  split; [done |]. split; [by apply sublist_subseteq |].
  split; [by apply sublist_length |].
  intros k A B HA HB. rewrite Nat.add_1_r in HB. cbn [candidates_after] in HB.
  rewrite HA, bind_Ok in HB. apply reduceProfiles_sublist in HB.
  split; [by apply sublist_subseteq | by apply sublist_length].
Qed.

End Reduction.

(** ** The profile space *)

Lemma elem_of_range x k : x ∈ range k ↔ x < k.
Proof. unfold range. rewrite elem_of_seq. lia. Qed.

Lemma elem_of_product pool k p :
  p ∈ product pool k ↔ length p = k ∧ Forall (λ x, x ∈ pool) p.
Proof.
  revert p. induction k as [|k IH]; intros p; cbn [product].
  - rewrite list_elem_of_singleton. split.
    + by intros ->.
    + intros [Hlen _]. by apply nil_length_inv.
  - rewrite list_elem_of_bind. split.
    + intros (x & Hp & Hx). apply list_elem_of_fmap in Hp as (rest & -> & Hrest).
      apply IH in Hrest as [Hlen Hall]. cbn. split; [lia |]. by constructor.
    + intros [Hlen Hall]. destruct p as [|x rest]; [done |].
      apply Forall_cons in Hall as [Hx Hall]. exists x. split; [|done].
      apply list_elem_of_fmap. exists rest. split; [done |].
      apply IH. cbn in Hlen. split; [lia | done].
Qed.

Lemma length_bind_const {A B} (f : A → list B) (l : list A) m :
  (∀ x, length (f x) = m) → length (l ≫= f) = length l * m.
Proof.
  intros Hf. induction l as [|x l IH]; [done |].
  rewrite bind_cons, length_app, Hf, IH. cbn. lia.
Qed.

Lemma length_product pool k : length (product pool k) = length pool ^ k.
Proof.
  induction k as [|k IH]; [done |]. cbn [product].
  rewrite (length_bind_const _ _ (length pool ^ k)).
  - cbn. lia.
  - intros x. by rewrite length_fmap.
Qed.

(** ** The fixed-point loop *)

Section FixedPoint.

Variable self : PotluckSolver.
Let n := numPlayers (gameWrapper self).

Lemma solve_loop_eq fuel previous_size current_size C rounds :
  solve_loop self fuel previous_size current_size C rounds
  = if shrunk previous_size current_size then
      match fuel with
      | 0 => None
      | S fuel' =>
          match reduceProfiles self C with
          | Raise e => Some (Raise e)
          | Ok C' => solve_loop self fuel' (Fin current_size) (length C') C' (S rounds)
          end
      end
    else Some (Ok (C, rounds)).
Proof. by destruct fuel. Qed.

Lemma solve_loop_fixed fuel previous_size S rounds R k :
  previous_round self previous_size S →
  solve_loop self fuel previous_size (length S) S rounds = Some (Ok (R, k)) →
  reduceProfiles self R = Ok R.
Proof.
  revert previous_size S rounds.
  induction fuel as [|fuel IH]; intros previous_size S rounds Hprev;
    rewrite solve_loop_eq; destruct (shrunk previous_size (length S)) eqn:Hshrunk.
  - done.
  - intros [= <- <-]. destruct previous_size as [|m]; [done |].
    destruct Hprev as (S0 & HS0 & Hm). cbn in Hshrunk.
    apply bool_decide_eq_false in Hshrunk.
    pose proof (reduceProfiles_sublist self S0 S HS0) as Hsub.
    rewrite (sublist_length_eq S S0 Hsub) at 1 by lia. done.
  - destruct (reduceProfiles self S) as [S'|e] eqn:HS'; [|done].
    apply IH. cbn. eauto.
  - intros [= <- <-]. destruct previous_size as [|m]; [done |].
    destruct Hprev as (S0 & HS0 & Hm). cbn in Hshrunk.
    apply bool_decide_eq_false in Hshrunk.
    pose proof (reduceProfiles_sublist self S0 S HS0) as Hsub.
    rewrite (sublist_length_eq S S0 Hsub) at 1 by lia. done.
Qed.

(** C7. The list that [solve] returns is a fixed point of the reduction:
    one more call of [reduceProfiles] on it returns the identical list. *)
Theorem solve_fixed_point fuel R rounds :
  solve self fuel = Some (Ok (R, rounds)) →
  reduceProfiles self R = Ok R.
Proof.
  unfold solve. apply solve_loop_fixed. exact I.
Qed.

(** From any well-formed list the loop stops after at most one round per
    profile plus one. *)
Lemma solve_loop_bound C :
  wf_profiles self C → wf_network self →
  ∀ previous_size, shrunk previous_size (length C) = true →
  ∃ R k, 1 ≤ k ≤ length C + 1 ∧
    ∀ fuel rounds, k ≤ fuel →
      solve_loop self fuel previous_size (length C) C rounds = Some (Ok (R, rounds + k)).
Proof.
  intros HC Hnet.
  induction C as [C IH] using (induction_ltof1 _ (@length (list nat))).
  unfold ltof in IH. intros previous_size Hshrunk.
  pose proof (reduceProfiles_Ok self C HC Hnet) as Hred.
  set (C' := filter (λ p, survivesb self C p = true) C) in *.
  assert (Hle : length C' ≤ length C) by apply length_filter.
  destruct (decide (length C' = length C)) as [Heq|Hneq].
  - exists C', 1. split; [lia |]. intros [|fuel] rounds Hfuel; [lia |].
    rewrite solve_loop_eq, Hshrunk, Hred, solve_loop_eq. cbn [shrunk].
    rewrite bool_decide_eq_false_2 by lia. do 3 f_equal. lia.
  - destruct (IH C') with (previous_size := Fin (length C))
      as (R & k & Hk & Hrun).
    + lia.
    + intros p Hp. apply HC. by apply list_elem_of_filter in Hp as [_ Hp].
    + cbn. apply bool_decide_eq_true_2. lia.
    + exists R, (S k). split; [lia |]. intros [|fuel] rounds Hfuel; [lia |].
      rewrite solve_loop_eq, Hshrunk, Hred. rewrite Hrun by lia.
      do 3 f_equal. lia.
Qed.

End FixedPoint.

(** ** The second round after a single elimination *)

Section SingleElimination.

Variable self : PotluckSolver.
Let n := numPlayers (gameWrapper self).
Let A := numActions (gameWrapper self).
Let C0 := product (range A) n.
Let keep := λ p : list nat, survivesb self C0 p = true.
Let C1 := filter keep C0.

Hypothesis Hnet : wf_network self.
Hypothesis Hloops : no_self_loops self.
Hypothesis HA : 2 ≤ A.
Hypothesis Hone : length C1 + 1 = length C0.

Lemma wf_product : wf_profiles self C0.
Proof. intros p Hp. by apply elem_of_product in Hp as [Hlen _]. Qed.

Lemma wf_product_filter : wf_profiles self C1.
Proof.
  intros p Hp. apply list_elem_of_filter in Hp as [_ Hp]. by apply wf_product.
Qed.

(** Removing the one eliminated profile leaves every support as it was:
    the profile that plays another action at the player's own coordinate
    is still there and has the same opponent tuple. *)
Lemma consistent_set_stable q player nbrs :
  network self !! player = Some nbrs →
  player < n →
  consistent_set q nbrs player C1 = consistent_set q nbrs player C0.
Proof.
  intros Hnb Hpl. apply set_eq. intros t. rewrite !elem_of_consistent_set. split.
  - intros (p & Hp & Hag & ->). exists p.
    apply list_elem_of_filter in Hp as [_ Hp]. done.
  - intros (p & Hp & Hag & ->).
    destruct (decide (keep p)) as [Hkeep|Hdrop].
    { exists p. split; [by apply list_elem_of_filter | done]. }
    pose proof Hp as Hp0. apply elem_of_product in Hp0 as [Hlen Hall].
    assert (Hlt : player < length p) by lia.
    destruct (lookup_lt_is_Some_2 p player Hlt) as [a Ha].
    set (x := if decide (a = 0) then 1 else 0).
    set (p' := <[player := x]> p).
    assert (Hp' : p' ∈ C0).
    { apply elem_of_product. unfold p'. rewrite length_insert. split; [done |].
      apply Forall_insert; [done |]. apply elem_of_range. unfold x.
      destruct (decide (a = 0)); lia. }
    assert (Hne : p' ≠ p).
    { intros Heq. assert (Hx : p' !! player = Some x)
        by (by apply list_lookup_insert_eq).
      rewrite Heq, Ha in Hx. unfold x in Hx. destruct (decide (a = 0)); naive_solver lia. }
    assert (Hkeep' : keep p').
    { destruct (decide (keep p')) as [|Hdrop']; [done |]. destruct Hne.
      by apply (filter_drops_one keep C0 p' p Hone). }
    exists p'. split; [by apply list_elem_of_filter |]. split.
    + unfold agrees in *. rewrite Forall_forall in *. intros i Hi.
      rewrite (Hag i Hi). unfold p'. rewrite list_lookup_insert_ne; [done |].
      intros ->. by apply (Hloops _ _ Hnb).
    + unfold opponents, p'.
      by rewrite take_insert_ge, drop_insert_lt by lia.
Qed.

Lemma passes_stable q player :
  q ∈ C1 → player < n → passes self C1 q player = passes self C0 q player.
Proof.
  intros Hq Hpl. destruct (Hnet player Hpl) as (nbrs & Hnb & Hrange).
  unfold passes.
  rewrite (consistentStrategies_Ok self q player C1 nbrs); [|done|..].
  - rewrite (consistentStrategies_Ok self q player C0 nbrs); [|done|..].
    + by rewrite consistent_set_stable.
    + intros i Hi. rewrite (wf_product_filter q Hq). by apply Hrange.
    + intros p i Hp Hi. rewrite (wf_product p Hp). by apply Hrange.
  - intros i Hi. rewrite (wf_product_filter q Hq). by apply Hrange.
  - intros p i Hp Hi. rewrite (wf_product_filter p Hp). by apply Hrange.
Qed.

Lemma reduceProfiles_stable : reduceProfiles self C1 = Ok C1.
Proof.
  rewrite (reduceProfiles_Ok self C1 wf_product_filter Hnet). f_equal.
  apply filter_Forall_id, Forall_forall. intros q Hq.
  pose proof Hq as Hq0. apply list_elem_of_filter in Hq0 as [Hkeep _].
  unfold keep, survivesb in *. rewrite forallb_forall in *.
  intros player Hpl. rewrite passes_stable; [by apply Hkeep | done |].
  apply list_elem_of_In, elem_of_range in Hpl. done.
Qed.

End SingleElimination.

(** ** A game with a single action *)

Lemma Qsum_point_mass_notin (t0 : list nat) (l : list (list nat)) :
  t0 ∉ l → (Qsum (point_mass t0 <$> l) == 0)%Q.
Proof.
  induction l as [|t l IH]; intros Hnotin; [reflexivity |].
  apply not_elem_of_cons in Hnotin as [Hne Hnotin].
  rewrite fmap_cons, Qsum_cons, IH by done.
  unfold point_mass. rewrite decide_False by done. ring.
Qed.

Lemma Qsum_point_mass_in (t0 : list nat) (l : list (list nat)) :
  NoDup l → t0 ∈ l → (Qsum (point_mass t0 <$> l) == 1)%Q.
Proof.
  induction 1 as [|t l Hnotin Hnodup IH]; intros Hin; [by apply elem_of_nil in Hin |].
  rewrite fmap_cons, Qsum_cons. apply elem_of_cons in Hin as [<-|Hin].
  - rewrite Qsum_point_mass_notin by done.
    unfold point_mass. rewrite decide_True by done. ring.
  - rewrite IH by done. unfold point_mass.
    rewrite decide_False by (intros ->; done). ring.
Qed.

Lemma conjecture_point_mass (t0 : list nat) (support : gset (list nat)) :
  t0 ∈ support → conjecture (point_mass t0) support.
Proof.
  intros Hin. split.
  - intros t _. unfold point_mass. destruct (decide (t = t0)); split; lra.
  - apply Qsum_point_mass_in; [apply NoDup_elements | by apply elem_of_elements].
Qed.

Section SingleAction.

Variable self : PotluckSolver.
Let n := numPlayers (gameWrapper self).

Hypothesis Hnet : wf_network self.
Hypothesis Hsound : solver_sound self.
Hypothesis Hactions : numActions (gameWrapper self) = 1.

(** With one action per player the only action is a best response to
    any conjecture, so a sound backend lets every profile through. *)
Lemma single_action_survives C p :
  wf_profiles self C → p ∈ C → Forall (λ x, x = 0) p →
  survivesb self C p = true.
Proof.
  intros HC Hp Hzero. apply survivesb_true. intros player Hpl.
  destruct (own_support self p player C HC Hnet Hp Hpl) as (c & Hc & Hown).
  exists c. split; [done |].
  assert (Hlt : player < length p) by (by rewrite (HC p Hp)).
  destruct (lookup_lt_is_Some_2 p player Hlt) as [a Ha].
  assert (a = 0) as ->.
  { rewrite Forall_forall in Hzero. apply Hzero. by apply list_elem_of_lookup_2 in Ha. }
  rewrite (checkBestResponse_program self p player c 0) by (done || set_solver).
  f_equal. apply negb_true_iff, Z.eqb_neq, Hsound.
  apply best_response_program_feasible. exists (point_mass (opponents p player)).
  split; [by apply conjecture_point_mass |].
  intros a Ha'. rewrite Hactions in Ha'. assert (a = 0) as -> by lia.
  apply Qle_refl.
Qed.

End SingleAction.

(** ** Termination of [solve] *)

Section Termination.

Variable self : PotluckSolver.
Let n := numPlayers (gameWrapper self).
Let A := numActions (gameWrapper self).

Lemma pow_ge_2 a k : 2 ≤ a → 1 ≤ k → 2 ≤ a ^ k.
Proof.
  intros Ha Hk. destruct k as [|k]; [lia |].
  rewrite Nat.pow_succ_r'.
  assert (1 ≤ a ^ k) by (apply Nat.neq_0_lt_0, Nat.pow_nonzero; lia). nia.
Qed.

Lemma solve_loop_from_product :
  1 ≤ A →
  wf_network self →
  no_self_loops self →
  (A = 1 → solver_sound self) →
  ∃ R rounds, 1 ≤ rounds ≤ A ^ n ∧
    ∀ fuel, A ^ n ≤ fuel →
      solve_loop self fuel Inf (length (product (range A) n)) (product (range A) n) 0
      = Some (Ok (R, rounds)).
Proof.
  intros HA Hnet Hloops Hsound.
  set (C0 := product (range A) n).
  assert (HN : length C0 = A ^ n).
  { unfold C0. rewrite length_product. unfold range. by rewrite length_seq. }
  assert (Hpos : 1 ≤ A ^ n) by (apply Nat.neq_0_lt_0, Nat.pow_nonzero; lia).
  pose proof (wf_product self) as HC0. fold n A C0 in HC0.
  pose proof (reduceProfiles_Ok self C0 HC0 Hnet) as Hred.
  set (C1 := filter (λ p, survivesb self C0 p = true) C0) in *.
  assert (Hle : length C1 ≤ length C0) by apply length_filter.
  assert (HC1 : wf_profiles self C1).
  { intros p Hp. apply HC0. by apply list_elem_of_filter in Hp as [_ Hp]. }
  destruct (decide (length C1 = length C0)) as [Hsame|Hless].
  { (* nothing is eliminated: one round *)
    exists C1, 1. split; [lia |]. intros [|fuel] Hfuel; [lia |].
    rewrite solve_loop_eq. cbn [shrunk]. rewrite Hred, solve_loop_eq. cbn [shrunk].
    by rewrite bool_decide_eq_false_2 by lia. }
  destruct (decide (length C1 + 1 = length C0)) as [Hone|Hmore].
  - (* exactly one profile is eliminated: the second round changes nothing *)
    assert (H2 : 2 ≤ A ∧ 1 ≤ n).
    { destruct (decide (n = 0)) as [Hn0|Hn0].
      { destruct Hless. unfold C1. f_equal. apply filter_Forall_id, Forall_forall.
        intros p _. unfold survivesb. fold n. by rewrite Hn0. }
      split; [|lia]. destruct (decide (A = 1)) as [HA1|HA1]; [|lia].
      destruct Hless. unfold C1. f_equal. apply filter_Forall_id, Forall_forall.
      intros p Hp. apply single_action_survives; [done | by apply Hsound | done..|].
      apply elem_of_product in Hp as [_ Hall]. eapply Forall_impl; [exact Hall |].
      intros x Hx. apply elem_of_range in Hx. lia. }
    destruct H2 as [HA2 Hn1].
    pose proof (reduceProfiles_stable self Hnet Hloops HA2 Hone) as Hstable.
    fold n A C0 C1 in Hstable.
    pose proof (pow_ge_2 A n HA2 Hn1) as Hpow.
    exists C1, 2. split; [lia |]. intros [|[|fuel]] Hfuel; [lia.. |].
    rewrite solve_loop_eq. cbn [shrunk]. rewrite Hred, solve_loop_eq. cbn [shrunk].
    rewrite bool_decide_eq_true_2 by lia. rewrite Hstable, solve_loop_eq. cbn [shrunk].
    by rewrite bool_decide_eq_false_2 by lia.
  - (* at least two profiles are eliminated: one round per profile left, plus one *)
    destruct (solve_loop_bound self C1 HC1 Hnet (Fin (length C0)))
      as (R & k & Hk & Hrun).
    { cbn. apply bool_decide_eq_true_2. lia. }
    exists R, (1 + k). split; [lia |]. intros [|fuel] Hfuel; [lia |].
    rewrite solve_loop_eq. cbn [shrunk]. rewrite Hred. apply Hrun. lia.
Qed.

End Termination.

(** C8. Let the solver come from [__init__] for a game with at least
    one action, on a network whose nodes cover the players, without
    self-loops, and, in the one-action game, with a backend that never
    calls a feasible program infeasible.  Then [solve] starts from the
    full product of [numActions ^ numPlayers] profiles and returns after
    at least one and at most [numActions ^ numPlayers] calls of
    [reduceProfiles]. *)
Theorem solve_terminates gw slv G self :
  init gw slv (Some G) = Ok self →
  1 ≤ numActions gw →
  wf_network self →
  no_self_loops self →
  (numActions gw = 1 → solver_sound self) →
  length (profiles self) = numActions gw ^ numPlayers gw
  ∧ ∃ R rounds,
      1 ≤ rounds ≤ numActions gw ^ numPlayers gw
      ∧ ∀ fuel, numActions gw ^ numPlayers gw ≤ fuel →
          solve self fuel = Some (Ok (R, rounds)).
Proof.
  intros [= <-] HA Hnet Hloops Hsound. cbn [profiles]. split.
  - rewrite length_product. unfold range. by rewrite length_seq.
  - unfold solve. cbn [profiles].
    by apply (solve_loop_from_product
                (mkPotluckSolver gw slv (product (range (numActions gw)) (numPlayers gw)) G)).
Qed.

(** ** The constructor *)

(** C9, as amended. [__init__] fails in one case only, with
    [AssertionError], when no network is passed; for any network at all,
    whatever its node count and node indices, it returns a solver whose
    candidate list is the full product. *)
Theorem init_only_rejects_None gw slv :
  init gw slv None = Raise AssertionError
  ∧ ∀ G, init gw slv (Some G)
         = Ok (mkPotluckSolver gw slv
                 (product (range (numActions gw)) (numPlayers gw)) G).
Proof. split; reflexivity. Qed.

(** ** The example backend and the example game *)

Lemma satisfiesb_feasible val prob : satisfiesb val prob = true → pl.feasible prob.
Proof.
  unfold satisfiesb. rewrite forallb_forall. intros Hall. exists val.
  intros c Hc. apply list_elem_of_In, Hall, andb_true_iff in Hc as [Hb Hh]. split.
  - unfold in_boundsb in Hb. rewrite forallb_forall in Hb. intros t Ht.
    apply list_elem_of_In, Hb, andb_true_iff in Ht as [Hlo Hup].
    by apply Qle_bool_iff in Hlo, Hup.
  - unfold holdsb in Hh. unfold pl.holds. destruct (pl.sense c).
    + by apply Qle_bool_iff.
    + by apply Qeq_bool_iff.
    + by apply Qle_bool_iff.
Qed.

Lemma vertex_backend_optimal prob :
  vertex_backend prob = pl.LpStatusOptimal → pl.feasible prob.
Proof.
  unfold vertex_backend.
  destruct (existsb _ _) eqn:Hex; [|done]. intros _.
  apply existsb_exists in Hex as (t & _ & Hsat). by apply satisfiesb_feasible in Hsat.
Qed.

Lemma pd_init G : init pd_game vertex_backend (Some G) = Ok (pd_solver G).
Proof. reflexivity. Qed.

Lemma pd_wf_profiles G : wf_profiles (pd_solver G) pd_profiles.
Proof.
  intros p Hp. unfold pd_profiles in Hp.
  repeat (apply elem_of_cons in Hp as [->|Hp]; [reflexivity |]).
  by apply elem_of_nil in Hp.
Qed.

Lemma pd_isolated_wf : wf_network (pd_solver pd_isolated).
Proof.
  intros i Hi. exists []. split.
  - cbn in Hi. destruct i as [|[|i]]; [reflexivity | reflexivity | lia].
  - intros k Hk. by apply elem_of_nil in Hk.
Qed.

Lemma pd_linked_wf : wf_network (pd_solver pd_linked).
Proof.
  intros i Hi. cbn in Hi. destruct i as [|[|i]]; [| |lia].
  - exists [1]. split; [reflexivity |].
    intros k Hk. apply list_elem_of_singleton in Hk as ->. cbn. lia.
  - exists [0]. split; [reflexivity |].
    intros k Hk. apply list_elem_of_singleton in Hk as ->. cbn. lia.
Qed.

Lemma pd_isolated_no_self_loops : no_self_loops (pd_solver pd_isolated).
Proof.
  intros i nbrs. cbn [network pd_solver]. unfold pd_isolated.
  intros Hnb. apply lookup_insert_Some in Hnb as [[_ <-]|[_ Hnb]].
  - apply not_elem_of_nil.
  - apply lookup_singleton_Some in Hnb as [_ <-]. apply not_elem_of_nil.
Qed.

Lemma pd_linked_node_0 : network (pd_solver pd_linked) !! 0 = Some [1].
Proof. reflexivity. Qed.

Lemma pd_support_nonempty : pd_support ≠ ∅.
Proof.
  intros Heq. apply (f_equal elements) in Heq. vm_compute in Heq. discriminate.
Qed.

(** ** The claims at the example *)

Lemma checkBestResponse_iff_conjecture_witness :
  (checkBestResponse (pd_solver pd_isolated) [1; 1] 0 pd_support = Ok true ↔
   ∃ w, conjecture w pd_support ∧ best_response pd_game w pd_support 0 1)
  ∧ (pd_support ≠ ∅ →
     (checkBestResponse (pd_solver pd_isolated) [1; 1] 0 pd_support = Ok false ↔
      ¬ ∃ w, conjecture w pd_support ∧ best_response pd_game w pd_support 0 1)).
Proof.
  apply (checkBestResponse_iff_conjecture (pd_solver pd_isolated) [1; 1] 0 pd_support 1).
  - reflexivity.
  - intros prob Hprob. vm_compute in Hprob. injection Hprob as <-. split.
    + intros _. vm_compute. discriminate.
    + intros _. apply vertex_backend_optimal. vm_compute. reflexivity.
Defined.

Lemma reduceProfiles_spec_witness :
  ∃ R, reduceProfiles (pd_solver pd_isolated) pd_profiles = Ok R
     ∧ R = filter (λ p, survivesb (pd_solver pd_isolated) pd_profiles p = true) pd_profiles
     ∧ ∀ profile, profile ∈ R ↔
         profile ∈ pd_profiles ∧ survives (pd_solver pd_isolated) pd_profiles profile.
Proof.
  apply (reduceProfiles_spec (pd_solver pd_isolated) pd_profiles).
  - apply pd_wf_profiles.
  - apply pd_isolated_wf.
Defined.

(** C4, the claim as stated fails: with a backend that reports the
    program unbounded, the check returns [True] instead of raising. *)
Lemma unbounded_status_returns_true :
  ¬ status_contract
      (solver pd_unbounded (best_response_program pd_unbounded 0 1 (elements pd_support)))
      (checkBestResponse pd_unbounded [1; 1] 0 pd_support).
Proof.
  intros (_ & _ & Herr). destruct Herr as [e He].
  - vm_compute. discriminate.
  - vm_compute. discriminate.
  - vm_compute in He. discriminate.
Qed.

Lemma checkBestResponse_status_witness :
  let status :=
    solver pd_unbounded (best_response_program pd_unbounded 0 1 (elements pd_support)) in
  (checkBestResponse pd_unbounded [1; 1] 0 pd_support = Ok false ↔
   status = pl.LpStatusInfeasible)
  ∧ (checkBestResponse pd_unbounded [1; 1] 0 pd_support = Ok true ↔
     status ≠ pl.LpStatusInfeasible).
Proof.
  apply (checkBestResponse_status pd_unbounded [1; 1] 0 pd_support 1).
  - apply pd_support_nonempty.
  - reflexivity.
Defined.

Lemma consistentStrategies_spec_witness :
  ∃ c, consistentStrategies (pd_solver pd_linked) [0; 1] 0 pd_profiles = Ok c
     ∧ (∀ p, p ∈ pd_profiles →
          (opponents p 0 ∈ c ↔ ∀ i, i ∈ [1] → p !! i = [0; 1] !! i))
     ∧ (∀ t, t ∈ c → ∃ p, p ∈ pd_profiles ∧ t = opponents p 0)
     ∧ ([1] = [] → c = list_to_set ((λ p, opponents p 0) <$> pd_profiles)).
Proof.
  apply (consistentStrategies_spec (pd_solver pd_linked) [0; 1] 0 pd_profiles [1]).
  - reflexivity.
  - apply pd_wf_profiles.
  - reflexivity.
  - intros i Hi. apply list_elem_of_singleton in Hi as ->. cbn. lia.
  - intros Hin. apply list_elem_of_singleton in Hin. discriminate.
Defined.

Lemma reduceProfiles_shrinks_witness :
  [[1; 1]] `sublist_of` pd_profiles ∧ [[1; 1]] ⊆ pd_profiles
  ∧ length [[1; 1]] ≤ length pd_profiles
  ∧ ∀ k A B,
      candidates_after (pd_solver pd_isolated) k pd_profiles = Ok A →
      candidates_after (pd_solver pd_isolated) (k + 1) pd_profiles = Ok B →
      B ⊆ A ∧ length B ≤ length A.
Proof.
  apply (reduceProfiles_shrinks (pd_solver pd_isolated) pd_profiles [[1; 1]]).
  vm_compute. reflexivity.
Defined.

Lemma solve_fixed_point_witness :
  reduceProfiles (pd_solver pd_isolated) [[1; 1]] = Ok [[1; 1]].
Proof.
  apply (solve_fixed_point (pd_solver pd_isolated) 4 [[1; 1]] 2).
  vm_compute. reflexivity.
Defined.

Lemma solve_terminates_witness :
  length (profiles (pd_solver pd_isolated)) = 2 ^ 2
  ∧ ∃ R rounds,
      1 ≤ rounds ≤ 2 ^ 2
      ∧ ∀ fuel, 2 ^ 2 ≤ fuel →
          solve (pd_solver pd_isolated) fuel = Some (Ok (R, rounds)).
Proof.
  apply (solve_terminates pd_game vertex_backend pd_isolated (pd_solver pd_isolated)).
  - reflexivity.
  - cbn. lia.
  - apply pd_isolated_wf.
  - apply pd_isolated_no_self_loops.
  - intros Hone. discriminate Hone.
Defined.

(** C9, the claim as stated fails: a network with three nodes, one of
    them outside the player range, is accepted for the two-player game and
    [solve] runs its rounds to the end. *)
Lemma invalid_network_accepted :
  nx.number_of_nodes pd_three_nodes ≠ numPlayers pd_game
  ∧ pd_three_nodes !! 7 = Some []
  ∧ init pd_game vertex_backend (Some pd_three_nodes) = Ok (pd_solver pd_three_nodes)
  ∧ solve (pd_solver pd_three_nodes) 4 = Some (Ok ([[1; 1]], 2)).
Proof.
  split; [vm_compute; discriminate |].
  split; [reflexivity |]. split; [reflexivity |].
  vm_compute. reflexivity.
Qed.

Lemma own_opponents_consistent_witness :
  ∃ c, consistentStrategies (pd_solver pd_linked) [0; 1] 0 pd_profiles = Ok c
     ∧ opponents [0; 1] 0 ∈ c
     ∧ c ≠ ∅.
Proof.
  apply (own_opponents_consistent (pd_solver pd_linked) [0; 1] 0 pd_profiles).
  - apply pd_wf_profiles.
  - apply pd_linked_wf.
  - unfold pd_profiles. apply elem_of_cons. right. apply elem_of_cons. by left.
  - cbn. lia.
Defined.

(** The worked scenario: whatever the network, the solver keeps the
    profile (1,1) alone, after two calls of [reduceProfiles]. *)
Lemma pd_solve_isolated :
  solve (pd_solver pd_isolated) 4 = Some (Ok ([[1; 1]], 2)).
Proof. vm_compute. reflexivity. Qed.

Lemma pd_solve_linked :
  solve (pd_solver pd_linked) 4 = Some (Ok ([[1; 1]], 2)).
Proof. vm_compute. reflexivity. Qed.

(** A dominated action is refused: no conjecture makes action 0 a best
    response for player 0. *)
Lemma pd_dominated_action :
  checkBestResponse (pd_solver pd_isolated) [0; 1] 0 pd_support = Ok false.
Proof. vm_compute. reflexivity. Qed.

(** ** Why the preconditions are there *)

(** With a self-loop the player's own action takes part in the agreement
    test: the opponent tuple of (0,0) is in the support of player 0 at
    (1,0), through the candidate (1,0) itself, although (0,0) does not
    show the reference action at the neighbour 0. *)
Lemma self_loop_support :
  consistentStrategies (pd_solver pd_self_loop) [1; 0] 0 pd_profiles = Ok {[ [0]; [1] ]}
  ∧ opponents [0; 0] 0 = [0]
  ∧ [0; 0] !! 0 ≠ [1; 0] !! 0.
Proof.
  split; [vm_compute; reflexivity |]. split; [reflexivity | discriminate].
Qed.

(** Without any action the product is empty and [solve] still makes its
    first round: one call of [reduceProfiles], for zero profiles. *)
Lemma solve_without_actions :
  init (gameWrapper no_action_solver) vertex_backend (Some (network no_action_solver))
  = Ok no_action_solver
  ∧ solve no_action_solver 1 = Some (Ok ([], 1))
  ∧ numActions (gameWrapper no_action_solver)
    ^ numPlayers (gameWrapper no_action_solver) = 0.
Proof. repeat split. Qed.

(** * Part 4. Further properties of the solver *)

(** ** The initial candidate list *)

Lemma NoDup_product pool k : NoDup pool → NoDup (product pool k).
Proof.
  intros Hpool. induction k as [|k IH]; cbn [product].
  - apply NoDup_singleton.
  - apply NoDup_bind; [| |done].
    + intros x1 x2 p _ _ H1 H2.
      apply list_elem_of_fmap in H1 as (r1 & -> & _).
      apply list_elem_of_fmap in H2 as (r2 & Heq & _). by injection Heq.
    + intros x _. apply NoDup_fmap_2; [|done]. by intros r1 r2 [= ->].
Qed.

(** X1. The solver that [__init__] returns starts from a candidate list
    without repetition that holds exactly the tuples with one action per
    player, every action below [numActions]; the game, the backend and the
    network are stored as passed. *)
Theorem init_candidates gw slv G self :
  init gw slv (Some G) = Ok self →
  NoDup (profiles self)
  ∧ (∀ p, p ∈ profiles self ↔
          length p = numPlayers gw ∧ Forall (λ a, a < numActions gw) p)
  ∧ gameWrapper self = gw ∧ solver self = slv ∧ network self = G.
Proof.
  intros [= <-]. cbn [profiles gameWrapper solver network].
  split; [apply NoDup_product, NoDup_seq |]. split; [|done].
  intros p. rewrite elem_of_product. apply and_iff_compat_l.
  rewrite !Forall_forall. by setoid_rewrite elem_of_range.
Qed.

(** ** What the consistency oracle looks at *)

Lemma py_all_ext {A} (f g : A → result bool) (it : list A) :
  (∀ i, i ∈ it → f i = g i) → py_all f it = py_all g it.
Proof.
  induction it as [|i it IH]; intros Hfg; [done |].
  rewrite !py_all_cons, (Hfg i) by left.
  destruct (g i) as [[|]|e]; [|done..]. rewrite !bind_Ok.
  apply IH. intros j Hj. apply Hfg. by right.
Qed.

Lemma same_action_ext profile1 profile2 p i :
  profile1 !! i = profile2 !! i →
  same_action profile1 p i = same_action profile2 p i.
Proof. intros Heq. unfold same_action, py_getitem. by rewrite Heq. Qed.

Lemma consistent_loop_ext self profile1 profile2 player todo acc :
  (∀ nbrs i, network self !! player = Some nbrs → i ∈ nbrs →
             profile1 !! i = profile2 !! i) →
  consistent_loop self profile1 player todo acc
  = consistent_loop self profile2 player todo acc.
Proof.
  intros Hagree. revert acc.
  induction todo as [|p todo IH]; intros acc; [done |].
  cbn [consistent_loop]. unfold nx.neighbors.
  destruct (network self !! player) as [nbrs|] eqn:Hnb; [|done].
  rewrite !bind_Ok.
  rewrite (py_all_ext (same_action profile1 p) (same_action profile2 p))
    by (intros i Hi; apply same_action_ext; by apply (Hagree nbrs)).
  destruct (py_all _ nbrs) as [[|]|e]; [| |done]; rewrite !bind_Ok; apply IH.
Qed.

(** X2. The support depends on the reference profile through the
    actions of the player's neighbours only: two reference profiles that
    show the same entry at every neighbour index get the same result from
    [consistentStrategies], exceptions included. *)
Theorem consistentStrategies_neighbours_only self profile1 profile2 player S :
  (∀ nbrs i, network self !! player = Some nbrs → i ∈ nbrs →
             profile1 !! i = profile2 !! i) →
  consistentStrategies self profile1 player S
  = consistentStrategies self profile2 player S.
Proof. intros Hagree. by apply consistent_loop_ext. Qed.

(** ** Indices out of range *)

Lemma same_action_refl_lt (profile : list nat) i :
  i < length profile → same_action profile profile i = Ok true.
Proof.
  intros Hlt. rewrite same_action_Ok by done. f_equal.
  by apply bool_decide_eq_true_2.
Qed.

Lemma same_action_ge (profile p : list nat) i :
  length profile ≤ i → same_action profile p i = Raise IndexError.
Proof.
  intros Hge. unfold same_action, py_getitem.
  by rewrite (lookup_ge_None_2 profile i Hge).
Qed.

Lemma same_action_outcome (profile p : list nat) i :
  (∃ b, same_action profile p i = Ok b) ∨ same_action profile p i = Raise IndexError.
Proof.
  unfold same_action, py_getitem.
  destruct (profile !! i); [|by right].
  destruct (p !! i); [|by right]. left. eauto.
Qed.

Lemma py_all_same_action_outcome (profile p : list nat) nbrs :
  (∃ b, py_all (same_action profile p) nbrs = Ok b)
  ∨ py_all (same_action profile p) nbrs = Raise IndexError.
Proof.
  induction nbrs as [|i nbrs IH]; [left; by exists true |].
  rewrite py_all_cons.
  destruct (same_action_outcome profile p i) as [[[|] ->]| ->];
    rewrite ?bind_Ok; [done | left; by exists false | by right].
Qed.

Lemma py_all_self_out_of_range (profile : list nat) nbrs i :
  i ∈ nbrs → length profile ≤ i →
  py_all (same_action profile profile) nbrs = Raise IndexError.
Proof.
  induction nbrs as [|j nbrs IH]; intros Hin Hge; [by apply elem_of_nil in Hin |].
  rewrite py_all_cons.
  destruct (decide (j < length profile)) as [Hlt|Hnlt].
  - rewrite same_action_refl_lt, bind_Ok by done.
    apply elem_of_cons in Hin as [->|Hin]; [lia | by apply IH].
  - by rewrite same_action_ge by lia.
Qed.

Lemma consistent_loop_index_error self profile player nbrs i todo acc :
  network self !! player = Some nbrs →
  i ∈ nbrs → length profile ≤ i → profile ∈ todo →
  consistent_loop self profile player todo acc = Raise IndexError.
Proof.
  intros Hnb Hin Hge. revert acc.
  induction todo as [|p todo IH]; intros acc Hprof; [by apply elem_of_nil in Hprof |].
  cbn [consistent_loop]. unfold nx.neighbors. rewrite Hnb, bind_Ok.
  destruct (decide (p = profile)) as [->|Hne].
  - by rewrite (py_all_self_out_of_range profile nbrs i).
  - apply elem_of_cons in Hprof as [Heq|Hprof]; [by destruct Hne |].
    destruct (py_all_same_action_outcome profile p nbrs) as [[[|] ->]| ->];
      rewrite ?bind_Ok; [by apply IH | by apply IH | done].
Qed.

(** X3. A neighbour index beyond the reference profile makes the oracle
    fail inside a round: when the reference profile is one of the
    candidates, [consistentStrategies] raises [IndexError], whatever the
    other candidates are. *)
Theorem consistentStrategies_index_error self profile player S nbrs i :
  network self !! player = Some nbrs →
  i ∈ nbrs →
  length profile ≤ i →
  profile ∈ S →
  consistentStrategies self profile player S = Raise IndexError.
Proof. intros Hnb Hin Hge Hprof. by apply (consistent_loop_index_error self profile player nbrs i). Qed.

(** X4. A player index beyond the profile makes the checker fail: on a
    non-empty support [checkBestResponse] raises [IndexError] when
    [profile[player]] does not exist. *)
Theorem checkBestResponse_index_error self profile player consistent :
  consistent ≠ ∅ →
  length profile ≤ player →
  checkBestResponse self profile player consistent = Raise IndexError.
Proof.
  intros Hne Hge.
  assert (Hoc : elements consistent ≠ []).
  { intros Hnil. apply Hne. by apply elements_empty_inv in Hnil as ->%leibniz_equiv. }
  unfold checkBestResponse, bestResponseLP.
  change (λ p, pl.mkLpVariable p 0%Q 1%Q) with lp_variable.
  rewrite pyeq_expr; cycle 1.
  { apply is_num_pysum.
    - by destruct (elements consistent).
    - apply Forall_fmap, Forall_forall. done. }
  cbn [pl.iadd]. rewrite bind_Ok.
  unfold py_getitem at 1. rewrite (lookup_ge_None_2 profile player Hge).
  by rewrite utility_terms_Raise.
Qed.

(** ** A player that is not a node of the network *)

Lemma consistent_loop_missing_node self profile player todo acc :
  network self !! player = None → todo ≠ [] →
  consistent_loop self profile player todo acc = Raise NetworkXError.
Proof.
  intros Hnb Hne. destruct todo as [|p todo]; [done |].
  cbn [consistent_loop]. unfold nx.neighbors. by rewrite Hnb.
Qed.

Lemma players_loop_missing_node self profile S players k :
  network self !! k = None → S ≠ [] → k ∈ players →
  players_loop self profile S players ≠ Ok true.
Proof.
  intros Hnb HS. induction players as [|player players IH]; intros Hk;
    [by apply elem_of_nil in Hk |].
  cbn [players_loop].
  destruct (decide (player = k)) as [->|Hne].
  - unfold consistentStrategies. by rewrite consistent_loop_missing_node.
  - apply elem_of_cons in Hk as [Heq|Hk]; [by destruct Hne |].
    destruct (consistentStrategies self profile player S) as [c|e]; [|done].
    rewrite bind_Ok.
    destruct (checkBestResponse self profile player c) as [[|]|e]; [|done..].
    rewrite bind_Ok. by apply IH.
Qed.

Lemma reduce_loop_missing_node self S todo reducedProfiles R k :
  network self !! k = None → k < numPlayers (gameWrapper self) → S ≠ [] →
  reduce_loop self S todo reducedProfiles = Ok R → R = reducedProfiles.
Proof.
  intros Hnb Hk HS. revert reducedProfiles.
  induction todo as [|profile todo IH]; intros acc; cbn [reduce_loop].
  - by intros [= <-].
  - pose proof (players_loop_missing_node self profile S
                  (range (numPlayers (gameWrapper self))) k Hnb HS) as Hloop.
    destruct (players_loop self profile S _) as [[|]|e]; [| |done].
    + destruct Hloop; [by apply elem_of_range | done].
    + rewrite bind_Ok. apply IH.
Qed.

(** X5. When some player is not a node of the network, a round never
    keeps a profile: [reduceProfiles] either raises or returns the empty
    list. *)
Theorem reduceProfiles_missing_player self k S R :
  k < numPlayers (gameWrapper self) →
  network self !! k = None →
  reduceProfiles self S = Ok R →
  R = [].
Proof.
  intros Hk Hnb. unfold reduceProfiles. destruct S as [|p S].
  - by intros [= <-].
  - by apply (reduce_loop_missing_node self (p :: S) (p :: S) [] R k).
Qed.

(** X6. When the first player is not a node of the network and there is
    a profile to examine, [solve] fails in its first round with
    [NetworkXError]: the constructor lets the network through and the
    error surfaces at the first call of [network.neighbors]. *)
Theorem solve_missing_first_player self fuel :
  0 < numPlayers (gameWrapper self) →
  network self !! 0 = None →
  profiles self ≠ [] →
  0 < fuel →
  solve self fuel = Some (Raise NetworkXError).
Proof.
  intros Hn Hnb Hprof Hfuel. unfold solve.
  destruct fuel as [|fuel]; [lia |]. rewrite solve_loop_eq. cbn [shrunk].
  destruct (profiles self) as [|p ps]; [done |].
  unfold reduceProfiles. cbn [reduce_loop].
  destruct (numPlayers (gameWrapper self)) as [|n] eqn:Hplayers; [lia |].
  unfold range. cbn [seq players_loop].
  unfold consistentStrategies. by rewrite consistent_loop_missing_node.
Qed.

(** ** Pure best responses and dominated actions *)

Lemma Qsum_point_mass_weighted_notin (t0 : list nat) (f : list nat → Q)
    (l : list (list nat)) :
  t0 ∉ l → (Qsum ((λ t, point_mass t0 t * f t)%Q <$> l) == 0)%Q.
Proof.
  induction l as [|t l IH]; intros Hnotin; [reflexivity |].
  apply not_elem_of_cons in Hnotin as [Hne Hnotin].
  rewrite fmap_cons, Qsum_cons, IH by done.
  unfold point_mass. rewrite decide_False by done. ring.
Qed.

Lemma Qsum_point_mass_weighted (t0 : list nat) (f : list nat → Q)
    (l : list (list nat)) :
  NoDup l → t0 ∈ l → (Qsum ((λ t, point_mass t0 t * f t)%Q <$> l) == f t0)%Q.
Proof.
  induction 1 as [|t l Hnotin Hnodup IH]; intros Hin; [by apply elem_of_nil in Hin |].
  rewrite fmap_cons, Qsum_cons. apply elem_of_cons in Hin as [<-|Hin].
  - rewrite Qsum_point_mass_weighted_notin by done.
    unfold point_mass. rewrite decide_True by done. ring.
  - rewrite IH by done. unfold point_mass.
    rewrite decide_False by (intros ->; done). ring.
Qed.

Lemma expected_utility_point_mass (gw : GameWrapper) (t0 : list nat)
    (support : gset (list nat)) (player action : nat) :
  t0 ∈ support →
  (expected_utility gw (point_mass t0) support player action
   == game gw (with_action t0 player action) player)%Q.
Proof.
  intros Hin. unfold expected_utility.
  apply (Qsum_point_mass_weighted t0
           (λ t, game gw (with_action t player action) player)).
  - apply NoDup_elements.
  - by apply elem_of_elements.
Qed.

(** Under non-negative weights a point-wise smaller payoff has a smaller
    or equal weighted sum, and a smaller one as soon as the weights do not
    all vanish. *)
Lemma Qsum_weighted_lt {A} (w f g : A → Q) (l : list A) :
  (∀ t, t ∈ l → (0 <= w t)%Q) →
  (∀ t, t ∈ l → (f t < g t)%Q) →
  (Qsum ((λ t, w t * f t)%Q <$> l) <= Qsum ((λ t, w t * g t)%Q <$> l))%Q
  ∧ ((0 < Qsum (w <$> l))%Q →
     (Qsum ((λ t, w t * f t)%Q <$> l) < Qsum ((λ t, w t * g t)%Q <$> l))%Q).
Proof.
  induction l as [|t l IH]; intros Hw Hfg.
  - unfold Qsum. cbn [fmap list_fmap foldr]. split; [lra | intros; lra].
  - destruct IH as [IHle IHlt].
    { intros s Hs. apply Hw. by right. }
    { intros s Hs. apply Hfg. by right. }
    rewrite !fmap_cons, !Qsum_cons.
    assert (H0 : (0 <= w t)%Q) by (apply Hw; left).
    assert (Hlt : (f t < g t)%Q) by (apply Hfg; left).
    assert (Hhead : (w t * f t <= w t * g t)%Q).
    { rewrite (Qmult_comm (w t) (f t)), (Qmult_comm (w t) (g t)).
      apply Qmult_le_compat_r; [by apply Qlt_le_weak | done]. }
    split; [lra |]. intros Hpos.
    destruct (Qlt_le_dec 0 (w t)) as [Hwpos|Hwzero].
    + assert ((w t * f t < w t * g t)%Q) by (by apply Qmult_lt_l).
      lra.
    + assert (Hrest : (0 < Qsum (w <$> l))%Q) by lra.
      specialize (IHlt Hrest). lra.
Qed.

Section PureStrategies.

Variable self : PotluckSolver.
Let gw := gameWrapper self.

(** X7. An action that is a best response to one opponent tuple of the
    support passes the check, the point mass on that tuple being the
    conjecture, as long as the backend does not call the feasible program
    infeasible. *)
Theorem pure_best_response_passes profile player consistent fixed t0 :
  profile !! player = Some fixed →
  t0 ∈ consistent →
  (∀ a, a < numActions gw →
        (game gw (with_action t0 player a) player
         <= game gw (with_action t0 player fixed) player)%Q) →
  (pl.feasible (best_response_program self player fixed (elements consistent)) →
   solver self (best_response_program self player fixed (elements consistent))
   ≠ pl.LpStatusInfeasible) →
  checkBestResponse self profile player consistent = Ok true.
Proof.
  intros Hfixed Hin Hbest Hsound.
  rewrite (checkBestResponse_program self profile player consistent fixed)
    by (done || set_solver).
  f_equal. apply negb_true_iff, Z.eqb_neq, Hsound.
  apply best_response_program_feasible. exists (point_mass t0).
  split; [by apply conjecture_point_mass |].
  intros a Ha. fold gw. rewrite !expected_utility_point_mass by done.
  by apply Hbest.
Qed.

(** X8. A strictly dominated action never passes: when another action
    of the player pays strictly more against every opponent tuple of the
    non-empty support, no conjecture makes the fixed action a best
    response, and the check returns [False] as long as the backend reports
    the infeasible program as infeasible. *)
Theorem dominated_action_fails profile player consistent fixed better :
  profile !! player = Some fixed →
  consistent ≠ ∅ →
  better < numActions gw →
  (∀ t, t ∈ consistent →
        (game gw (with_action t player fixed) player
         < game gw (with_action t player better) player)%Q) →
  (¬ pl.feasible (best_response_program self player fixed (elements consistent)) →
   solver self (best_response_program self player fixed (elements consistent))
   = pl.LpStatusInfeasible) →
  (¬ ∃ w, conjecture w consistent ∧ best_response gw w consistent player fixed)
  ∧ checkBestResponse self profile player consistent = Ok false.
Proof.
  intros Hfixed Hne Hbetter Hdom Hcomplete.
  assert (Hno : ¬ ∃ w, conjecture w consistent
                       ∧ best_response gw w consistent player fixed).
  { intros (w & [Hw Hsum] & Hbr). specialize (Hbr better Hbetter).
    unfold expected_utility in Hbr.
    destruct (Qsum_weighted_lt w
                (λ t, game gw (with_action t player fixed) player)
                (λ t, game gw (with_action t player better) player)
                (elements consistent)) as [_ Hlt].
    - intros t Ht. apply Hw. by apply elem_of_elements.
    - intros t Ht. apply Hdom. by apply elem_of_elements.
    - assert (Hpos : (0 < Qsum (w <$> elements consistent))%Q) by lra.
      specialize (Hlt Hpos). lra. }
  split; [done |].
  rewrite (checkBestResponse_program self profile player consistent fixed) by done.
  f_equal. apply negb_false_iff, Z.eqb_eq, Hcomplete.
  intros Hfeas. apply Hno. by apply (best_response_program_feasible self).
Qed.

End PureStrategies.

(** ** Larger supports *)

Lemma Qsum_Permutation l1 l2 : l1 ≡ₚ l2 → (Qsum l1 == Qsum l2)%Q.
Proof.
  induction 1 as [|x l1 l2 _ IH|x y l|l1 l2 l3 _ IH1 _ IH2].
  - reflexivity.
  - rewrite !Qsum_cons, IH. reflexivity.
  - rewrite !Qsum_cons. ring.
  - by rewrite IH1.
Qed.

Lemma Qsum_zero {A} (f : A → Q) (l : list A) :
  (∀ x, x ∈ l → (f x == 0)%Q) → (Qsum (f <$> l) == 0)%Q.
Proof.
  induction l as [|x l IH]; intros Hf; [reflexivity |].
  rewrite fmap_cons, Qsum_cons, (Hf x), IH by (left || (intros; apply Hf; by right)).
  ring.
Qed.

(** A sum over the larger support of terms that vanish with the weight is
    the sum over the smaller support. *)
Lemma Qsum_restrict (w : list nat → Q) (k : list nat → Q → Q)
    (c1 c2 : gset (list nat)) :
  c1 ⊆ c2 →
  (∀ t, (k t 0 == 0)%Q) →
  (Qsum ((λ t, k t (restrict w c1 t)) <$> elements c2)
   == Qsum ((λ t, k t (w t)) <$> elements c1))%Q.
Proof.
  intros Hsub Hk.
  rewrite (union_difference_L c1 c2 Hsub) at 1.
  rewrite (Qsum_Permutation _
             ((λ t, k t (restrict w c1 t)) <$> (elements c1 ++ elements (c2 ∖ c1)))).
  - rewrite fmap_app, Qsum_app.
    rewrite (Qsum_ext _ (λ t, k t (w t)) (elements c1)).
    + rewrite (Qsum_zero _ (elements (c2 ∖ c1))); [ring |].
      intros t Ht. apply elem_of_elements, elem_of_difference in Ht as [_ Hnot].
      unfold restrict. rewrite decide_False by done. apply Hk.
    + intros t Ht. apply elem_of_elements in Ht.
      unfold restrict. rewrite decide_True by done. reflexivity.
  - apply fmap_Permutation, elements_disj_union. set_solver.
Qed.

Lemma conjecture_restrict (w : list nat → Q) (c1 c2 : gset (list nat)) :
  c1 ⊆ c2 → conjecture w c1 → conjecture (restrict w c1) c2.
Proof.
  intros Hsub [Hw Hsum]. split.
  - intros t _. unfold restrict. destruct (decide (t ∈ c1)); [by apply Hw | split; lra].
  - rewrite (Qsum_restrict w (λ _ x, x) c1 c2 Hsub) by (intros; reflexivity).
    done.
Qed.

Lemma expected_utility_restrict (gw : GameWrapper) (w : list nat → Q)
    (c1 c2 : gset (list nat))
    (player action : nat) :
  c1 ⊆ c2 →
  (expected_utility gw (restrict w c1) c2 player action
   == expected_utility gw w c1 player action)%Q.
Proof.
  intros Hsub. unfold expected_utility.
  apply (Qsum_restrict w (λ t x, x * game gw (with_action t player action) player)%Q
           c1 c2 Hsub).
  intros t. ring.
Qed.

Lemma best_response_restrict (gw : GameWrapper) (w : list nat → Q)
    (c1 c2 : gset (list nat))
    (player fixed : nat) :
  c1 ⊆ c2 → best_response gw w c1 player fixed →
  best_response gw (restrict w c1) c2 player fixed.
Proof.
  intros Hsub Hbr a Ha. rewrite !expected_utility_restrict by done. by apply Hbr.
Qed.

Lemma feasible_larger_support (self : PotluckSolver) (player fixed : nat)
    (c1 c2 : gset (list nat)) :
  c1 ⊆ c2 →
  pl.feasible (best_response_program self player fixed (elements c1)) →
  pl.feasible (best_response_program self player fixed (elements c2)).
Proof.
  intros Hsub Hfeas.
  apply best_response_program_feasible in Hfeas as (w & Hw & Hbr).
  apply best_response_program_feasible. exists (restrict w c1).
  split; [by apply conjecture_restrict | by apply best_response_restrict].
Qed.

(** X9. With a backend that is exact on the two programs, enlarging the
    support never turns an accepted action into a refused one: what
    [checkBestResponse] accepts on a support it accepts on every larger
    one. *)
Theorem checkBestResponse_larger_support (self : PotluckSolver)
    (profile : list nat) (player fixed : nat) (c1 c2 : gset (list nat)) :
  profile !! player = Some fixed →
  c1 ⊆ c2 →
  solver_exact_on self (best_response_program self player fixed (elements c1)) →
  solver_exact_on self (best_response_program self player fixed (elements c2)) →
  checkBestResponse self profile player c1 = Ok true →
  checkBestResponse self profile player c2 = Ok true.
Proof.
  intros Hfixed Hsub Hex1 Hex2 Hcheck.
  assert (Hne1 : c1 ≠ ∅).
  { intros ->. by rewrite checkBestResponse_empty in Hcheck. }
  assert (Hne2 : c2 ≠ ∅) by set_solver.
  rewrite (checkBestResponse_program self profile player c1 fixed) in Hcheck by done.
  rewrite (checkBestResponse_program self profile player c2 fixed) by done.
  f_equal. apply negb_true_iff, Z.eqb_neq, Hex2.
  apply (feasible_larger_support self player fixed c1 c2 Hsub), Hex1.
  injection Hcheck as Hcheck. by apply negb_true_iff, Z.eqb_neq in Hcheck.
Qed.

(** ** The result of [solve] among the fixed points *)

Lemma consistent_set_mono profile nbrs player (S1 S2 : list (list nat)) :
  S1 ⊆ S2 →
  consistent_set profile nbrs player S1 ⊆ consistent_set profile nbrs player S2.
Proof.
  intros Hsub t. rewrite !elem_of_consistent_set.
  intros (p & Hp & Hag & ->). exists p. split; [by apply Hsub | done].
Qed.

Section GreatestFixedPoint.

Variable self : PotluckSolver.
Let n := numPlayers (gameWrapper self).
Let A := numActions (gameWrapper self).

Hypothesis Hnet : wf_network self.
Hypothesis Hexact : solver_exact self.

(** A player that passes at a profile against a candidate list passes
    against every larger list. *)
Lemma passes_mono (S1 S2 : list (list nat)) p player :
  wf_profiles self S2 → S1 ⊆ S2 → p ∈ S1 → Forall (λ a, a < A) p → player < n →
  passes self S1 p player = true → passes self S2 p player = true.
Proof.
  intros HS2 Hsub Hp Hrange Hpl.
  assert (HS1 : wf_profiles self S1) by (intros q Hq; by apply HS2, Hsub).
  destruct (Hnet player Hpl) as (nbrs & Hnb & Hnbrs).
  unfold passes.
  rewrite (consistentStrategies_Ok self p player S1 nbrs); [|done|..]; cycle 1.
  { intros i Hi. rewrite (HS1 p Hp). by apply Hnbrs. }
  { intros q i Hq Hi. rewrite (HS1 q Hq). by apply Hnbrs. }
  rewrite (consistentStrategies_Ok self p player S2 nbrs); [|done|..]; cycle 1.
  { intros i Hi. rewrite (HS1 p Hp). by apply Hnbrs. }
  { intros q i Hq Hi. rewrite (HS2 q Hq). by apply Hnbrs. }
  pose proof (consistent_set_mono p nbrs player S1 S2 Hsub) as Hmono.
  assert (Hown : opponents p player ∈ consistent_set p nbrs player S1).
  { apply elem_of_consistent_set. exists p. split; [done |].
    split; [apply agrees_refl | done]. }
  assert (Hlt : player < length p) by (by rewrite (HS1 p Hp)).
  destruct (lookup_lt_is_Some_2 p player Hlt) as [fixed Hfixed].
  assert (Hfixed_lt : fixed < A).
  { rewrite Forall_forall in Hrange. apply Hrange.
    by apply list_elem_of_lookup_2 in Hfixed. }
  rewrite (checkBestResponse_program self p player _ fixed) by (done || set_solver).
  rewrite (checkBestResponse_program self p player _ fixed) by (done || set_solver).
  destruct (negb (solver self (best_response_program self player fixed
              (elements (consistent_set p nbrs player S1))) =? _)%Z) eqn:H1; [|done].
  intros _. apply negb_true_iff, Z.eqb_neq in H1.
  assert (H2 : solver self (best_response_program self player fixed
                 (elements (consistent_set p nbrs player S2)))
               ≠ pl.LpStatusInfeasible).
  { apply Hexact; [done | set_solver |].
    apply (feasible_larger_support self player fixed _ _ Hmono).
    apply Hexact; [done | set_solver | done]. }
  apply Z.eqb_neq in H2. by rewrite H2.
Qed.

Lemma survivesb_mono (S1 S2 : list (list nat)) p :
  wf_profiles self S2 → S1 ⊆ S2 → p ∈ S1 → Forall (λ a, a < A) p →
  survivesb self S1 p = true → survivesb self S2 p = true.
Proof.
  intros HS2 Hsub Hp Hrange. unfold survivesb. rewrite !forallb_forall.
  intros Hall player Hpl. apply (passes_mono S1 S2); [done.. | | by apply Hall].
  by apply list_elem_of_In, elem_of_range in Hpl.
Qed.

(** A list that a round leaves unchanged is kept whole by the round of
    any larger list. *)
Lemma fixed_point_survives_round (T C : list (list nat)) :
  wf_profiles self C → (∀ p, p ∈ C → Forall (λ a, a < A) p) →
  T ⊆ C → reduceProfiles self T = Ok T →
  T ⊆ filter (λ p, survivesb self C p = true) C.
Proof.
  intros HC Hrange Hsub HT p Hp.
  assert (HTwf : wf_profiles self T) by (intros q Hq; by apply HC, Hsub).
  rewrite (reduceProfiles_Ok self T HTwf Hnet) in HT. injection HT as HT.
  apply list_elem_of_filter. split; [|by apply Hsub].
  apply (survivesb_mono T C); [done.. | by apply Hrange, Hsub |].
  rewrite <- HT in Hp. by apply list_elem_of_filter in Hp as [Hs _].
Qed.

Lemma solve_loop_contains (T : list (list nat)) fuel :
  reduceProfiles self T = Ok T →
  ∀ previous_size current_size C rounds R k,
    wf_profiles self C → (∀ p, p ∈ C → Forall (λ a, a < A) p) → T ⊆ C →
    solve_loop self fuel previous_size current_size C rounds = Some (Ok (R, k)) →
    T ⊆ R.
Proof.
  intros HT. induction fuel as [|fuel IH];
    intros previous_size current_size C rounds R k HC Hrange Hsub;
    rewrite solve_loop_eq; destruct (shrunk previous_size current_size).
  - done.
  - by intros [= <- <-].
  - rewrite (reduceProfiles_Ok self C HC Hnet). apply IH.
    + intros p Hp. apply HC. by apply list_elem_of_filter in Hp as [_ Hp].
    + intros p Hp. apply Hrange. by apply list_elem_of_filter in Hp as [_ Hp].
    + by apply fixed_point_survives_round.
  - by intros [= <- <-].
Qed.

End GreatestFixedPoint.

(** X10. With a backend that answers every best-response program
    exactly, the list [solve] returns contains every list of initial
    profiles that one round of [reduceProfiles] leaves unchanged: it is the
    largest such list. *)
Theorem solve_greatest_fixed_point gw slv G self fuel R rounds T :
  init gw slv (Some G) = Ok self →
  wf_network self →
  solver_exact self →
  solve self fuel = Some (Ok (R, rounds)) →
  T ⊆ profiles self →
  reduceProfiles self T = Ok T →
  T ⊆ R.
Proof.
  intros Hinit Hnet Hexact Hsolve Hsub HT. unfold solve in Hsolve.
  apply (solve_loop_contains self Hnet Hexact T fuel HT _ _ _ _ _ _) in Hsolve;
    [done | | | done].
  - injection Hinit as <-. cbn [profiles gameWrapper].
    intros p Hp. by apply elem_of_product in Hp as [Hlen _].
  - injection Hinit as <-. cbn [profiles gameWrapper].
    intros p Hp. apply elem_of_product in Hp as [_ Hall].
    eapply Forall_impl; [exact Hall |]. intros a Ha. by apply elem_of_range in Ha.
Qed.

(** ** What [solve] returns *)

Section SolveResult.

Variable self : PotluckSolver.

Lemma solve_loop_result fuel :
  ∀ previous_size current_size C rounds R k,
    solve_loop self fuel previous_size current_size C rounds = Some (Ok (R, k)) →
    R `sublist_of` C ∧ rounds ≤ k ≤ rounds + fuel
    ∧ (shrunk previous_size current_size = true → rounds < k)
    ∧ (shrunk previous_size current_size = false → R = C ∧ k = rounds).
Proof.
  induction fuel as [|fuel IH]; intros previous_size current_size C rounds R k;
    rewrite solve_loop_eq; destruct (shrunk previous_size current_size).
  - done.
  - intros [= <- <-]. repeat split; (done || lia).
  - destruct (reduceProfiles self C) as [C'|e] eqn:HC'; [|done].
    intros Hrun. apply IH in Hrun as (Hsub & Hk & _ & _).
    apply reduceProfiles_sublist in HC'.
    split; [by etrans |]. split; [lia |]. split; [intros _; lia | done].
  - intros [= <- <-]. repeat split; (done || lia).
Qed.

(** X11. Whenever [solve] returns, the list it returns is a sub-list of
    the initial candidate list (same profiles, same order, none repeated if
    none was), it has made at least one round, and it has made exactly one
    round if and only if no profile was eliminated. *)
Theorem solve_result fuel R rounds :
  solve self fuel = Some (Ok (R, rounds)) →
  R `sublist_of` profiles self
  ∧ (NoDup (profiles self) → NoDup R)
  ∧ 1 ≤ rounds ≤ fuel
  ∧ (rounds = 1 ↔ R = profiles self).
Proof.
  unfold solve. intros Hrun.
  pose proof (solve_loop_result _ _ _ _ _ _ _ Hrun) as (Hsub & Hk & Hlt & _).
  specialize (Hlt eq_refl).
  split; [done |]. split; [intros Hnd; by apply (sublist_NoDup R (profiles self)) |].
  split; [lia |].
  rewrite solve_loop_eq in Hrun. cbn [shrunk] in Hrun.
  destruct fuel as [|fuel]; [done |].
  destruct (reduceProfiles self (profiles self)) as [C'|e] eqn:HC'; [|done].
  pose proof (reduceProfiles_sublist self _ _ HC') as Hsub'.
  pose proof (solve_loop_result _ _ _ _ _ _ _ Hrun) as (HsubR & Hk' & Hlt' & Heq').
  destruct (shrunk (Fin (length (profiles self))) (length C')) eqn:Hshrunk.
  - specialize (Hlt' eq_refl). cbn in Hshrunk. apply bool_decide_eq_true in Hshrunk.
    split; [lia |]. intros ->. apply sublist_length in HsubR. lia.
  - destruct (Heq' eq_refl) as [-> ->]. cbn in Hshrunk.
    apply bool_decide_eq_false in Hshrunk.
    split; [intros _|done]. apply sublist_length_eq; [done | lia].
Qed.

(** X12. From any candidate list with one action per player, on a
    network whose nodes cover the players, [solve] returns, after at most
    one round per profile plus one, whatever the game and the backend. *)
Theorem solve_terminates_from_any_list :
  wf_profiles self (profiles self) →
  wf_network self →
  ∃ R rounds,
    1 ≤ rounds ≤ length (profiles self) + 1
    ∧ ∀ fuel, rounds ≤ fuel → solve self fuel = Some (Ok (R, rounds)).
Proof.
  intros Hwf Hnet.
  destruct (solve_loop_bound self (profiles self) Hwf Hnet Inf eq_refl)
    as (R & k & Hk & Hrun).
  exists R, k. split; [done |]. intros fuel Hfuel. unfold solve.
  by rewrite (Hrun fuel 0 Hfuel).
Qed.

End SolveResult.

(** ** The example backend on two-action games

    With two actions a best-response program has one constraint that is
    not trivial, so a feasible program is satisfied by a point mass and the
    example backend answers it exactly. *)

Lemma satisfiesb_true val prob :
  (∀ c, c ∈ pl.constraints prob → pl.in_bounds val c ∧ pl.holds val c) →
  satisfiesb val prob = true.
Proof.
  intros Hsat. unfold satisfiesb. apply forallb_forall. intros c Hc.
  apply list_elem_of_In, Hsat in Hc as [Hb Hh]. apply andb_true_iff. split.
  - unfold in_boundsb. apply forallb_forall. intros t Ht.
    apply list_elem_of_In, Hb in Ht as [Hlo Hup].
    apply andb_true_iff. split; by apply Qle_bool_iff.
  - unfold holdsb. unfold pl.holds in Hh. destruct (pl.sense c).
    + by apply Qle_bool_iff.
    + by apply Qeq_bool_iff.
    + by apply Qle_bool_iff.
Qed.

Lemma best_response_program_satisfied (self : PotluckSolver) (player fixed : nat)
    (support : gset (list nat)) (w : list nat → Q) :
  conjecture w support →
  best_response (gameWrapper self) w support player fixed →
  ∀ c, c ∈ pl.constraints (best_response_program self player fixed (elements support)) →
       pl.in_bounds w c ∧ pl.holds w c.
Proof.
  intros [Hb Hs] Hbr c Hc. unfold best_response_program in Hc. cbn [pl.constraints] in Hc.
  assert (Hb' : ∀ t, t ∈ elements support → (0 <= w t)%Q ∧ (w t <= 1)%Q).
  { intros t Ht. apply Hb. by apply elem_of_elements. }
  apply elem_of_cons in Hc as [->|Hc].
  - split; [by apply in_bounds_sum_constraint | by apply holds_sum_constraint].
  - apply list_elem_of_fmap in Hc as (a & -> & Ha). apply elem_of_range in Ha.
    split; [by apply in_bounds_action_constraint |].
    apply holds_action_constraint. by apply Hbr.
Qed.

Lemma variable_names_program (self : PotluckSolver) (player fixed : nat)
    (support : gset (list nat)) (t0 : list nat) :
  t0 ∈ support →
  t0 ∈ variable_names (best_response_program self player fixed (elements support)).
Proof.
  intros Hin. unfold variable_names, best_response_program. cbn [pl.constraints].
  rewrite bind_cons. apply elem_of_app. left.
  assert (Hvars : lp_variable t0 ∈ vars (pl.expr (sum_constraint (elements support)))).
  { unfold sum_constraint. cbn [pl.expr].
    rewrite vars_aff_sub, vars_sum_variables. apply elem_of_app. left.
    apply list_elem_of_fmap. exists t0. split; [done | by apply elem_of_elements]. }
  unfold vars in Hvars. apply list_elem_of_fmap in Hvars as (t & Ht & Hmem).
  apply list_elem_of_fmap. exists t. split; [by rewrite <- Ht | done].
Qed.

Lemma Qle_or_all_lt {A} (f g : A → Q) (l : list A) :
  (∃ t, t ∈ l ∧ (f t <= g t)%Q) ∨ (∀ t, t ∈ l → (g t < f t)%Q).
Proof.
  induction l as [|t l [(s & Hs & Hle)|Hall]].
  - right. intros t Ht. by apply elem_of_nil in Ht.
  - left. exists s. split; [by right | done].
  - destruct (Qlt_le_dec (g t) (f t)) as [Hlt|Hle].
    + right. intros s Hs. apply elem_of_cons in Hs as [->|Hs]; [done | by apply Hall].
    + left. exists t. split; [by left | done].
Qed.

Lemma two_actions_pure_best_response (gw : GameWrapper) (w : list nat → Q)
    (support : gset (list nat)) (player fixed : nat) :
  numActions gw = 2 → fixed < 2 →
  conjecture w support → best_response gw w support player fixed →
  ∃ t0, t0 ∈ support ∧
    ∀ a, a < numActions gw →
      (game gw (with_action t0 player a) player
       <= game gw (with_action t0 player fixed) player)%Q.
Proof.
  intros Htwo Hfixed [Hw Hsum] Hbr.
  set (other := 1 - fixed).
  destruct (Qle_or_all_lt
              (λ t, game gw (with_action t player other) player)
              (λ t, game gw (with_action t player fixed) player)
              (elements support)) as [(t0 & Ht0 & Hle)|Hall].
  - exists t0. split; [by apply elem_of_elements |]. intros a Ha.
    destruct (decide (a = fixed)) as [->|Hne]; [apply Qle_refl |].
    assert (a = other) as -> by (unfold other; lia). done.
  - exfalso. assert (Hother : other < numActions gw) by (unfold other; lia).
    specialize (Hbr other Hother). unfold expected_utility in Hbr.
    destruct (Qsum_weighted_lt w
                (λ t, game gw (with_action t player fixed) player)
                (λ t, game gw (with_action t player other) player)
                (elements support)) as [_ Hlt].
    + intros t Ht. apply Hw. by apply elem_of_elements.
    + done.
    + assert (Hpos : (0 < Qsum (w <$> elements support))%Q) by lra.
      specialize (Hlt Hpos). lra.
Qed.

Lemma vertex_backend_status prob :
  vertex_backend prob = pl.LpStatusOptimal ∨ vertex_backend prob = pl.LpStatusInfeasible.
Proof. unfold vertex_backend. destruct (existsb _ _); [by left | by right]. Qed.

Lemma vertex_backend_exact self :
  solver self = vertex_backend →
  numActions (gameWrapper self) = 2 →
  solver_exact self.
Proof.
  intros Hsolver Htwo player fixed support Hfixed Hne.
  unfold solver_exact_on. rewrite Hsolver. split.
  - intros Hfeas.
    apply best_response_program_feasible in Hfeas as (w & Hw & Hbr).
    destruct (two_actions_pure_best_response (gameWrapper self) w support player fixed)
      as (t0 & Ht0 & Hbest); [done | lia | done | done |].
    assert (Hopt : vertex_backend
                     (best_response_program self player fixed (elements support))
                   = pl.LpStatusOptimal).
    { unfold vertex_backend.
      rewrite (proj2 (existsb_exists _ _)); [done |].
      exists t0. split.
      - apply list_elem_of_In. by apply variable_names_program.
      - apply satisfiesb_true, best_response_program_satisfied.
        + by apply conjecture_point_mass.
        + intros a Ha. rewrite !expected_utility_point_mass by done. by apply Hbest. }
    by rewrite Hopt.
  - intros Hstatus. apply vertex_backend_optimal.
    by destruct (vertex_backend_status
                   (best_response_program self player fixed (elements support))).
Qed.

(** ** NoStdStreams *)

Section NoStdStreams.

Import pyio.

Lemma flush_open st h :
  closed (heap st h) = false →
  ∃ st', flush st h = inr st'
       ∧ next st' = next st
       ∧ sys_stdout st' = sys_stdout st
       ∧ sys_stderr st' = sys_stderr st
       ∧ (∀ h', closed (heap st' h') = closed (heap st h'))
       ∧ (∀ h', h' ≠ h → heap st' h' = heap st h')
       ∧ heap st' h = mkFile false [] (flushed (heap st h) ++ buffer (heap st h)).
Proof.
  intros Hopen. unfold flush. rewrite Hopen. eexists. split; [done |].
  cbn [set_file next sys_stdout sys_stderr heap]. repeat split.
  - intros h'. destruct (decide (h = h')) as [<-|Hne].
    + by rewrite fn_lookup_insert.
    + by rewrite fn_lookup_insert_ne.
  - intros h' Hne. by rewrite fn_lookup_insert_ne.
  - by rewrite fn_lookup_insert.
Qed.

Lemma flush_closed st h :
  closed (heap st h) = true → flush st h = inl ValueError.
Proof. intros Hclosed. unfold flush. by rewrite Hclosed. Qed.

Lemma write_open st h s :
  closed (heap st h) = false →
  ∃ st', write st h s = inr st'
       ∧ next st' = next st
       ∧ sys_stdout st' = sys_stdout st
       ∧ sys_stderr st' = sys_stderr st
       ∧ (∀ h', closed (heap st' h') = closed (heap st h'))
       ∧ (∀ h', h' ≠ h → heap st' h' = heap st h').
Proof.
  intros Hopen. unfold write. rewrite Hopen. eexists. split; [done |].
  cbn [set_file next sys_stdout sys_stderr heap]. repeat split.
  - intros h'. destruct (decide (h = h')) as [<-|Hne].
    + by rewrite fn_lookup_insert.
    + by rewrite fn_lookup_insert_ne.
  - intros h' Hne. by rewrite fn_lookup_insert_ne.
Qed.

Lemma close_spec st h :
  next (close st h) = next st
  ∧ sys_stdout (close st h) = sys_stdout st
  ∧ sys_stderr (close st h) = sys_stderr st
  ∧ closed (heap (close st h) h) = true
  ∧ (∀ h', h' ≠ h → heap (close st h) h' = heap st h').
Proof.
  unfold close. destruct (closed (heap st h)) eqn:Hc.
  - repeat split; done.
  - cbn [set_file next sys_stdout sys_stderr heap]. repeat split.
    + by rewrite fn_lookup_insert.
    + intros h' Hne. by rewrite fn_lookup_insert_ne.
Qed.

(** A block of prints on open streams runs to its end and touches the
    two current streams only. *)
Lemma run_open body st :
  closed (heap st (sys_stdout st)) = false →
  closed (heap st (sys_stderr st)) = false →
  ∃ st', run body st = (None, st')
       ∧ next st' = next st
       ∧ sys_stdout st' = sys_stdout st
       ∧ sys_stderr st' = sys_stderr st
       ∧ (∀ h, closed (heap st' h) = closed (heap st h))
       ∧ (∀ h, h ≠ sys_stdout st → h ≠ sys_stderr st → heap st' h = heap st h).
Proof.
  revert st. induction body as [|c body IH]; intros st Hout Herr.
  - exists st. repeat split; done.
  - cbn [run].
    assert (∃ st1, exec c st = inr st1
                 ∧ next st1 = next st
                 ∧ sys_stdout st1 = sys_stdout st
                 ∧ sys_stderr st1 = sys_stderr st
                 ∧ (∀ h, closed (heap st1 h) = closed (heap st h))
                 ∧ (∀ h, h ≠ sys_stdout st → h ≠ sys_stderr st →
                         heap st1 h = heap st h))
      as (st1 & -> & Hn & Ho & He & Hc & Hh).
    { destruct c as [s|s]; cbn [exec].
      - destruct (write_open st (sys_stdout st) s Hout)
          as (st1 & Hw & Hn & Ho & He & Hc & Hh).
        exists st1. repeat split; try done. intros h H1 _. by apply Hh.
      - destruct (write_open st (sys_stderr st) s Herr)
          as (st1 & Hw & Hn & Ho & He & Hc & Hh).
        exists st1. repeat split; try done. intros h _ H2. by apply Hh. }
    destruct (IH st1) as (st' & Hrun & Hn' & Ho' & He' & Hc' & Hh').
    { by rewrite Ho, Hc. }
    { by rewrite He, Hc. }
    exists st'. split; [done |].
    split; [by rewrite Hn', Hn |]. split; [by rewrite Ho', Ho |].
    split; [by rewrite He', He |]. split; [intros h; by rewrite Hc', Hc |].
    intros h H1 H2. rewrite Hh'; [by apply Hh | by rewrite Ho | by rewrite He].
Qed.

Lemma enter_open self st :
  closed (heap st (sys_stdout st)) = false →
  closed (heap st (sys_stderr st)) = false →
  ∃ st', enter self st
         = (None,
            mkNoStdStreams (devnull self) (_stdout self) (_stderr self)
              (Some (sys_stdout st)) (Some (sys_stderr st)),
            st')
       ∧ next st' = next st
       ∧ sys_stdout st' = _stdout self
       ∧ sys_stderr st' = _stderr self
       ∧ (∀ h, closed (heap st' h) = closed (heap st h))
       ∧ (∀ h, h ≠ sys_stdout st → h ≠ sys_stderr st → heap st' h = heap st h)
       ∧ (∀ h, h = sys_stdout st ∨ h = sys_stderr st →
               buffer (heap st' h) = []
               ∧ flushed (heap st' h) = flushed (heap st h) ++ buffer (heap st h)).
Proof.
  intros Hout Herr. unfold enter.
  destruct (flush_open st (sys_stdout st) Hout)
    as (st1 & -> & Hn1 & Ho1 & He1 & Hc1 & Hh1 & Hf1).
  destruct (flush_open st1 (sys_stderr st)) as (st2 & -> & Hn2 & Ho2 & He2 & Hc2 & Hh2 & Hf2).
  { by rewrite Hc1. }
  eexists. split; [done |]. cbn [set_streams next sys_stdout sys_stderr heap].
  split; [by rewrite Hn2 |]. split; [done |]. split; [done |].
  split; [intros h; by rewrite Hc2, Hc1 |].
  split; [intros h H1 H2; rewrite Hh2 by done; by apply Hh1 |].
  intros h Hh. destruct (decide (h = sys_stderr st)) as [->|Hne].
  - rewrite Hf2. cbn [buffer flushed]. split; [done |].
    destruct (decide (sys_stderr st = sys_stdout st)) as [Heq|Hne'].
    + rewrite Heq, Hf1. cbn [buffer flushed]. by rewrite app_nil_r.
    + by rewrite Hh1.
  - destruct Hh as [->|Hh]; [|done].
    rewrite Hh2, Hf1 by done. done.
Qed.

Lemma exit_open self st out err :
  old_stdout self = Some out →
  old_stderr self = Some err →
  closed (heap st (_stdout self)) = false →
  closed (heap st (_stderr self)) = false →
  ∃ st', exit self st = (None, self, st')
       ∧ next st' = next st
       ∧ sys_stdout st' = out
       ∧ sys_stderr st' = err
       ∧ closed (heap st' (devnull self)) = true
       ∧ (∀ h, h ≠ devnull self → closed (heap st' h) = closed (heap st h))
       ∧ (∀ h, h ≠ _stdout self → h ≠ _stderr self → h ≠ devnull self →
               heap st' h = heap st h).
Proof.
  intros Hold_out Hold_err Hout Herr. unfold exit.
  destruct (flush_open st (_stdout self) Hout)
    as (st1 & -> & Hn1 & Ho1 & He1 & Hc1 & Hh1 & _).
  destruct (flush_open st1 (_stderr self)) as (st2 & -> & Hn2 & Ho2 & He2 & Hc2 & Hh2 & _).
  { by rewrite Hc1. }
  rewrite Hold_out, Hold_err.
  eexists. split; [done |].
  match goal with |- context [close ?s ?h] =>
    destruct (close_spec s h) as (Hn3 & Ho3 & He3 & Hc3 & Hh3) end.
  rewrite Hn3, Ho3, He3. cbn [set_streams next sys_stdout sys_stderr heap] in *.
  split; [by rewrite Hn2 |]. split; [done |]. split; [done |]. split; [done |].
  split.
  - intros h Hne. rewrite Hh3 by done. by rewrite Hc2, Hc1.
  - intros h H1 H2 H3. rewrite Hh3 by done. rewrite Hh2 by done. by apply Hh1.
Qed.

End NoStdStreams.

Section NoStdStreamsBlock.

Import pyio.

Lemma closed_after_open_devnull st h :
  closed (heap st h) = false →
  closed (heap (open_devnull st).2 h) = false.
Proof.
  intros Hopen. cbn [open_devnull snd heap].
  destruct (decide (next st = h)) as [<-|Hne].
  - by rewrite fn_lookup_insert.
  - by rewrite fn_lookup_insert_ne.
Qed.

Lemma closed_default_stream st (arg : option nat) :
  (∀ h, arg = Some h → closed (heap st h) = false) →
  closed (heap (open_devnull st).2 (default (next st) arg)) = false.
Proof.
  intros Harg. destruct arg as [h|]; cbn [default].
  - apply closed_after_open_devnull. by apply Harg.
  - cbn [open_devnull snd heap]. by rewrite fn_lookup_insert.
Qed.

(** One block, in full: the object it leaves and every file afterwards. *)
Lemma with_NoStdStreams_run stdout stderr body st :
  closed (heap st (sys_stdout st)) = false →
  closed (heap st (sys_stderr st)) = false →
  (∀ h, stdout = Some h → closed (heap st h) = false) →
  (∀ h, stderr = Some h → closed (heap st h) = false) →
  ∃ st',
    with_NoStdStreams stdout stderr body st
    = (None,
       mkNoStdStreams (next st) (default (next st) stdout) (default (next st) stderr)
         (Some (sys_stdout st)) (Some (sys_stderr st)),
       st')
    ∧ next st' = S (next st)
    ∧ sys_stdout st' = sys_stdout st
    ∧ sys_stderr st' = sys_stderr st
    ∧ closed (heap st' (next st)) = true
    ∧ (∀ h, h ≠ next st → closed (heap st' h) = closed (heap st h))
    ∧ (∀ h, h ≠ next st → h ≠ default (next st) stdout → h ≠ default (next st) stderr →
         (h ≠ sys_stdout st → h ≠ sys_stderr st → heap st' h = heap st h)
         ∧ (h = sys_stdout st ∨ h = sys_stderr st →
            buffer (heap st' h) = []
            ∧ flushed (heap st' h) = flushed (heap st h) ++ buffer (heap st h))).
Proof.
  intros Hout Herr Harg_out Harg_err.
  unfold with_NoStdStreams, NoStdStreams_init.
  pose proof (closed_after_open_devnull st _ Hout) as Hout0.
  pose proof (closed_after_open_devnull st _ Herr) as Herr0.
  pose proof (closed_default_stream st stdout Harg_out) as Hso.
  pose proof (closed_default_stream st stderr Harg_err) as Hse.
  assert (Hframe0 : ∀ h, h ≠ next st → heap (open_devnull st).2 h = heap st h).
  { intros h Hne. cbn [open_devnull snd heap]. by rewrite fn_lookup_insert_ne. }
  destruct (open_devnull st) as [dn st0] eqn:Hopen.
  assert (dn = next st) as -> by (by injection Hopen).
  assert (Hn0 : next st0 = S (next st)) by (injection Hopen as <-; done).
  assert (Ho0 : sys_stdout st0 = sys_stdout st) by (injection Hopen as <-; done).
  assert (He0 : sys_stderr st0 = sys_stderr st) by (injection Hopen as <-; done).
  cbn [snd] in *.
  set (self := mkNoStdStreams (next st) (default (next st) stdout)
                 (default (next st) stderr) None None).
  destruct (enter_open self st0) as (st1 & -> & Hn1 & Ho1 & He1 & Hc1 & Hh1 & Hf1).
  { by rewrite Ho0. }
  { by rewrite He0. }
  cbn [devnull _stdout _stderr self] in *.
  destruct (run_open body st1) as (st2 & -> & Hn2 & Ho2 & He2 & Hc2 & Hh2).
  { by rewrite Ho1, Hc1. }
  { by rewrite He1, Hc1. }
  set (self1 := mkNoStdStreams (next st) (default (next st) stdout)
                  (default (next st) stderr) (Some (sys_stdout st0)) (Some (sys_stderr st0))).
  destruct (exit_open self1 st2 (sys_stdout st0) (sys_stderr st0))
    as (st3 & -> & Hn3 & Ho3 & He3 & Hc3 & Hcl3 & Hh3); [done | done | | |].
  { cbn [_stdout self1]. by rewrite Hc2, Hc1. }
  { cbn [_stderr self1]. by rewrite Hc2, Hc1. }
  cbn [devnull _stdout _stderr self1] in *.
  exists st3. unfold self1. rewrite Ho0, He0. split; [done |].
  split; [by rewrite Hn3, Hn2, Hn1 |].
  split; [by rewrite Ho3 |]. split; [by rewrite He3 |]. split; [done |].
  split.
  - intros h Hne. rewrite Hcl3, Hc2, Hc1 by done.
    by rewrite Hframe0.
  - intros h Hdn Ho He.
    assert (Hsame : heap st3 h = heap st1 h).
    { rewrite Hh3 by done. apply Hh2; by rewrite ?Ho1, ?He1. }
    rewrite Hsame. split.
    + intros H1 H2. rewrite Hh1 by (by rewrite ?Ho0, ?He0). by apply Hframe0.
    + intros Hh. rewrite <- (Hframe0 h Hdn). apply Hf1. by rewrite Ho0, He0.
Qed.

(** X13. A [with NoStdStreams(...)] block around prints, entered while
    the standard streams and the streams passed, if any, are open, ends
    without exception with [sys.stdout] and [sys.stderr] back to the
    objects they were before, the null file closed and no other file
    closed. *)
Theorem with_NoStdStreams_restores stdout stderr body st :
  closed (heap st (sys_stdout st)) = false →
  closed (heap st (sys_stderr st)) = false →
  (∀ h, stdout = Some h → closed (heap st h) = false) →
  (∀ h, stderr = Some h → closed (heap st h) = false) →
  ∃ self st',
    with_NoStdStreams stdout stderr body st = (None, self, st')
    ∧ sys_stdout st' = sys_stdout st
    ∧ sys_stderr st' = sys_stderr st
    ∧ closed (heap st' (devnull self)) = true
    ∧ ∀ h, h ≠ devnull self → closed (heap st' h) = closed (heap st h).
Proof.
  intros Hout Herr Hao Hae.
  destruct (with_NoStdStreams_run stdout stderr body st Hout Herr Hao Hae)
    as (st' & Hrun & _ & Ho & He & Hc & Hcl & _).
  eexists _, st'. split; [exact Hrun |]. cbn [devnull]. done.
Qed.

(** X14. With no stream passed the block is silent: nothing printed
    inside reaches the files that were [sys.stdout] and [sys.stderr],
    which are only flushed, and every other file that existed is left as it
    was. *)
Theorem with_NoStdStreams_silent body st :
  sys_stdout st < next st →
  sys_stderr st < next st →
  closed (heap st (sys_stdout st)) = false →
  closed (heap st (sys_stderr st)) = false →
  ∃ self st',
    with_NoStdStreams None None body st = (None, self, st')
    ∧ (∀ h, h = sys_stdout st ∨ h = sys_stderr st →
         closed (heap st' h) = false
         ∧ buffer (heap st' h) = []
         ∧ flushed (heap st' h) = flushed (heap st h) ++ buffer (heap st h))
    ∧ (∀ h, h < next st → h ≠ sys_stdout st → h ≠ sys_stderr st →
         heap st' h = heap st h).
Proof.
  intros Hlo Hle Hout Herr.
  destruct (with_NoStdStreams_run None None body st Hout Herr)
    as (st' & Hrun & _ & Ho & He & Hc & Hcl & Hfr); [done | done |].
  cbn [default] in Hfr.
  eexists _, st'. split; [exact Hrun |]. split.
  - intros h Hh. assert (Hne : h ≠ next st) by (destruct Hh as [->| ->]; lia).
    destruct (Hfr h Hne Hne Hne) as [_ Hflushed].
    rewrite Hcl by done. split; [by destruct Hh as [->| ->] | by apply Hflushed].
  - intros h Hlt H1 H2. assert (Hne : h ≠ next st) by lia.
    destruct (Hfr h Hne Hne Hne) as [Hsame _]. by apply Hsame.
Qed.

(** X15. A [NoStdStreams] object cannot be used for a second block: its
    null file is closed by the first [__exit__], so after the second
    [__enter__], which succeeds, [__exit__] raises [ValueError] at its first
    flush and leaves [sys.stdout] bound to the closed null file. *)
Theorem NoStdStreams_second_use body st r self st' :
  sys_stdout st < next st →
  sys_stderr st < next st →
  closed (heap st (sys_stdout st)) = false →
  closed (heap st (sys_stderr st)) = false →
  with_NoStdStreams None None body st = (r, self, st') →
  ∃ self2 st2,
    enter self st' = (None, self2, st2)
    ∧ exit self2 st2 = (Some ValueError, self2, st2)
    ∧ sys_stdout st2 = devnull self
    ∧ closed (heap st2 (sys_stdout st2)) = true.
Proof.
  intros Hlo Hle Hout Herr Hblock.
  destruct (with_NoStdStreams_run None None body st Hout Herr)
    as (st1 & Hrun & _ & Ho & He & Hc & Hcl & _); [done | done |].
  rewrite Hrun in Hblock. injection Hblock as <- <- <-. cbn [default] in *.
  set (self := mkNoStdStreams (next st) (next st) (next st)
                 (Some (sys_stdout st)) (Some (sys_stderr st))).
  destruct (enter_open self st1) as (st2 & Henter & _ & Ho2 & He2 & Hc2 & _).
  { rewrite Ho, Hcl by lia. done. }
  { rewrite He, Hcl by lia. done. }
  eexists _, st2. split; [exact Henter |]. cbn [_stdout _stderr devnull self] in *.
  split; [|split; [done |by rewrite Ho2, Hc2]].
  unfold exit. cbn [_stdout]. by rewrite flush_closed by (by rewrite Hc2).
Qed.

End NoStdStreamsBlock.

(** ** The further properties at the examples *)

Lemma init_candidates_witness :
  NoDup (profiles (pd_solver pd_isolated))
  ∧ (∀ p, p ∈ profiles (pd_solver pd_isolated) ↔
          length p = numPlayers pd_game ∧ Forall (λ a, a < numActions pd_game) p)
  ∧ gameWrapper (pd_solver pd_isolated) = pd_game
  ∧ solver (pd_solver pd_isolated) = vertex_backend
  ∧ network (pd_solver pd_isolated) = pd_isolated.
Proof.
  apply (init_candidates pd_game vertex_backend pd_isolated (pd_solver pd_isolated)).
  reflexivity.
Defined.

Lemma consistentStrategies_neighbours_only_witness :
  consistentStrategies (pd_solver pd_linked) [0; 1] 0 pd_profiles
  = consistentStrategies (pd_solver pd_linked) [1; 1] 0 pd_profiles.
Proof.
  apply (consistentStrategies_neighbours_only (pd_solver pd_linked) [0; 1] [1; 1] 0
           pd_profiles).
  intros nbrs i Hnb Hi. rewrite pd_linked_node_0 in Hnb. injection Hnb as <-.
  apply list_elem_of_singleton in Hi as ->. reflexivity.
Defined.

Lemma consistentStrategies_index_error_witness :
  consistentStrategies (pd_solver pd_far_neighbour) [0; 1] 0 pd_profiles
  = Raise IndexError.
Proof.
  apply (consistentStrategies_index_error (pd_solver pd_far_neighbour) [0; 1] 0
           pd_profiles [5] 5).
  - reflexivity.
  - by apply list_elem_of_singleton.
  - cbn. lia.
  - unfold pd_profiles. apply elem_of_cons. right. apply elem_of_cons. by left.
Defined.

Lemma checkBestResponse_index_error_witness :
  checkBestResponse (pd_solver pd_isolated) [1; 1] 2 pd_support = Raise IndexError.
Proof.
  apply (checkBestResponse_index_error (pd_solver pd_isolated) [1; 1] 2 pd_support).
  - apply pd_support_nonempty.
  - cbn. lia.
Defined.

Lemma reduceProfiles_missing_player_witness :
  reduceProfiles (pd_solver pd_missing_second) [[0; 0]; [0; 1]] = Ok []
  ∧ @nil (list nat) = [].
Proof.
  split; [vm_compute; reflexivity |].
  apply (reduceProfiles_missing_player (pd_solver pd_missing_second) 1
           [[0; 0]; [0; 1]] []).
  - cbn. lia.
  - reflexivity.
  - vm_compute. reflexivity.
Defined.

Lemma solve_missing_first_player_witness :
  solve (pd_solver pd_missing_first) 1 = Some (Raise NetworkXError).
Proof.
  apply (solve_missing_first_player (pd_solver pd_missing_first) 1).
  - cbn. lia.
  - reflexivity.
  - discriminate.
  - lia.
Defined.

Lemma pure_best_response_passes_witness :
  checkBestResponse (pd_solver pd_isolated) [1; 1] 0 pd_support = Ok true.
Proof.
  apply (pure_best_response_passes (pd_solver pd_isolated) [1; 1] 0 pd_support 1 [0]).
  - reflexivity.
  - unfold pd_support. apply elem_of_union. left. by apply elem_of_singleton.
  - intros a Ha. cbn in Ha. destruct a as [|[|a]]; [| |lia]; vm_compute; discriminate.
  - intros _. vm_compute. discriminate.
Defined.

Lemma dominated_action_fails_witness :
  (¬ ∃ w, conjecture w pd_support
          ∧ best_response (gameWrapper (pd_solver pd_isolated)) w pd_support 0 0)
  ∧ checkBestResponse (pd_solver pd_isolated) [0; 1] 0 pd_support = Ok false.
Proof.
  apply (dominated_action_fails (pd_solver pd_isolated) [0; 1] 0 pd_support 0 1).
  - reflexivity.
  - apply pd_support_nonempty.
  - cbn. lia.
  - intros t Ht. unfold pd_support in Ht.
    apply elem_of_union in Ht as [Ht|Ht]; apply elem_of_singleton in Ht as ->;
      vm_compute; reflexivity.
  - intros _. vm_compute. reflexivity.
Defined.

Lemma checkBestResponse_larger_support_witness :
  checkBestResponse (pd_solver pd_isolated) [1; 1] 0 pd_support = Ok true.
Proof.
  apply (checkBestResponse_larger_support (pd_solver pd_isolated) [1; 1] 0 1
           {[ [0] ]} pd_support).
  - reflexivity.
  - unfold pd_support. apply union_subseteq_l.
  - apply (vertex_backend_exact (pd_solver pd_isolated) eq_refl eq_refl).
    + cbn. lia.
    + intros Heq. apply (f_equal elements) in Heq. vm_compute in Heq. discriminate.
  - apply (vertex_backend_exact (pd_solver pd_isolated) eq_refl eq_refl).
    + cbn. lia.
    + apply pd_support_nonempty.
  - vm_compute. reflexivity.
Defined.

Lemma solve_greatest_fixed_point_witness :
  solve (pd_solver pd_isolated) 4 = Some (Ok ([[1; 1]], 2))
  ∧ reduceProfiles (pd_solver pd_isolated) [[1; 1]] = Ok [[1; 1]]
  ∧ [[1; 1]] ⊆ [[1; 1]].
Proof.
  split; [vm_compute; reflexivity |]. split; [vm_compute; reflexivity |].
  apply (solve_greatest_fixed_point pd_game vertex_backend pd_isolated
           (pd_solver pd_isolated) 4 [[1; 1]] 2 [[1; 1]]).
  - reflexivity.
  - apply pd_isolated_wf.
  - apply (vertex_backend_exact (pd_solver pd_isolated) eq_refl eq_refl).
  - vm_compute. reflexivity.
  - intros p Hp. apply list_elem_of_singleton in Hp as ->.
    cbn [profiles pd_solver]. unfold pd_profiles.
    do 3 (apply elem_of_cons; right). by apply list_elem_of_singleton.
  - vm_compute. reflexivity.
Defined.

Lemma solve_result_witness :
  [[1; 1]] `sublist_of` profiles (pd_solver pd_isolated)
  ∧ (NoDup (profiles (pd_solver pd_isolated)) → NoDup [[1; 1]])
  ∧ 1 ≤ 2 ≤ 4
  ∧ (2 = 1 ↔ [[1; 1]] = profiles (pd_solver pd_isolated)).
Proof.
  apply (solve_result (pd_solver pd_isolated) 4 [[1; 1]] 2).
  vm_compute. reflexivity.
Defined.

Lemma solve_terminates_from_any_list_witness :
  ∃ R rounds,
    1 ≤ rounds ≤ length (profiles (pd_solver pd_linked)) + 1
    ∧ ∀ fuel, rounds ≤ fuel → solve (pd_solver pd_linked) fuel = Some (Ok (R, rounds)).
Proof.
  apply (solve_terminates_from_any_list (pd_solver pd_linked)).
  - apply pd_wf_profiles.
  - apply pd_linked_wf.
Defined.

Lemma with_NoStdStreams_restores_witness :
  ∃ self st',
    pyio.with_NoStdStreams None None io_example.block io_example.start = (None, self, st')
    ∧ pyio.sys_stdout st' = pyio.sys_stdout io_example.start
    ∧ pyio.sys_stderr st' = pyio.sys_stderr io_example.start
    ∧ pyio.closed (pyio.heap st' (pyio.devnull self)) = true
    ∧ ∀ h, h ≠ pyio.devnull self →
           pyio.closed (pyio.heap st' h) = pyio.closed (pyio.heap io_example.start h).
Proof.
  apply (with_NoStdStreams_restores None None io_example.block io_example.start).
  - reflexivity.
  - reflexivity.
  - intros h Hh. discriminate Hh.
  - intros h Hh. discriminate Hh.
Defined.

Lemma with_NoStdStreams_silent_witness :
  ∃ self st',
    pyio.with_NoStdStreams None None io_example.block io_example.start = (None, self, st')
    ∧ (∀ h, h = pyio.sys_stdout io_example.start ∨ h = pyio.sys_stderr io_example.start →
         pyio.closed (pyio.heap st' h) = false
         ∧ pyio.buffer (pyio.heap st' h) = []
         ∧ pyio.flushed (pyio.heap st' h)
           = pyio.flushed (pyio.heap io_example.start h)
             ++ pyio.buffer (pyio.heap io_example.start h))
    ∧ (∀ h, h < pyio.next io_example.start →
            h ≠ pyio.sys_stdout io_example.start →
            h ≠ pyio.sys_stderr io_example.start →
            pyio.heap st' h = pyio.heap io_example.start h).
Proof.
  apply (with_NoStdStreams_silent io_example.block io_example.start).
  - cbn. lia.
  - cbn. lia.
  - reflexivity.
  - reflexivity.
Defined.

Lemma NoStdStreams_second_use_witness :
  ∃ self2 st2,
    pyio.enter (pyio.with_NoStdStreams None None io_example.block io_example.start).1.2
               (pyio.with_NoStdStreams None None io_example.block io_example.start).2
    = (None, self2, st2)
    ∧ pyio.exit self2 st2 = (Some pyio.ValueError, self2, st2)
    ∧ pyio.sys_stdout st2
      = pyio.devnull (pyio.with_NoStdStreams None None io_example.block io_example.start).1.2
    ∧ pyio.closed (pyio.heap st2 (pyio.sys_stdout st2)) = true.
Proof.
  apply (NoStdStreams_second_use io_example.block io_example.start
           (pyio.with_NoStdStreams None None io_example.block io_example.start).1.1).
  - cbn. lia.
  - cbn. lia.
  - reflexivity.
  - reflexivity.
  - reflexivity.
Defined.

(** ** Taking an action out of a profile and putting one back *)

Lemma with_action_opponents (p : list nat) player a :
  player < length p →
  with_action (opponents p player) player a = <[player := a]> p.
Proof.
  intros Hlt. unfold with_action, opponents.
  rewrite take_app_length' by (rewrite length_take; lia).
  rewrite drop_app_length' by (rewrite length_take; lia).
  rewrite insert_take_drop by done. by rewrite Nat.add_1_r.
Qed.

(** X16. The two tuple operations of the solver undo each other:
    putting the player's own action back into the opponent tuple of a
    profile gives the profile back, and taking the player's coordinate out
    of a tuple into which an action was inserted gives the tuple back; the
    inserted action sits at the player's index. *)
Theorem with_action_opponents_round_trip (p t : list nat) player a :
  p !! player = Some a →
  player ≤ length t →
  with_action (opponents p player) player a = p
  ∧ opponents (with_action t player a) player = t
  ∧ with_action t player a !! player = Some a
  ∧ length (with_action t player a) = S (length t).
Proof.
  intros Hp Ht. split; [|split; [|split]].
  - rewrite with_action_opponents by (by apply lookup_lt_Some in Hp).
    by apply list_insert_id.
  - unfold opponents, with_action.
    rewrite take_app_length' by (rewrite length_take; lia).
    rewrite drop_app_add' by (rewrite length_take; lia).
    change (drop 1 ([a] ++ drop player t)) with (drop player t).
    by rewrite take_drop.
  - unfold with_action. rewrite lookup_app_r by (rewrite length_take; lia).
    rewrite length_take. by replace (player - player `min` length t) with 0 by lia.
  - unfold with_action. rewrite !length_app, length_take, length_drop. cbn. lia.
Qed.

(** ** Pure Nash equilibria *)

Lemma nashb_true gw p : nashb gw p = true ↔ nash gw p.
Proof.
  unfold nashb, nash. rewrite forallb_forall. split.
  - intros H player a Hpl Ha.
    assert (Hin : In player (range (numPlayers gw)))
      by (by apply list_elem_of_In, elem_of_range).
    specialize (H player Hin). rewrite forallb_forall in H.
    apply Qle_bool_iff, H. by apply list_elem_of_In, elem_of_range.
  - intros H player Hpl. apply list_elem_of_In, elem_of_range in Hpl.
    apply forallb_forall. intros a Ha. apply list_elem_of_In, elem_of_range in Ha.
    apply Qle_bool_iff. by apply H.
Qed.

Section Nash.

Variable self : PotluckSolver.
Let gw := gameWrapper self.
Let n := numPlayers (gameWrapper self).
Let A := numActions (gameWrapper self).

Hypothesis Hnet : wf_network self.
Hypothesis Hexact : solver_exact self.

(** At an equilibrium every player passes, with the point mass on the
    actions the others really play. *)
Lemma nash_survives (S : list (list nat)) p :
  wf_profiles self S → p ∈ S → Forall (λ a, a < A) p → nash gw p →
  survivesb self S p = true.
Proof.
  intros HS Hp Hrange Hnash. apply survivesb_true. intros player Hpl.
  destruct (own_support self p player S HS Hnet Hp Hpl) as (c & Hc & Hown).
  exists c. split; [done |].
  assert (Hlt : player < length p) by (by rewrite (HS p Hp)).
  destruct (lookup_lt_is_Some_2 p player Hlt) as [fixed Hfixed].
  assert (Hfixed_lt : fixed < A).
  { rewrite Forall_forall in Hrange. apply Hrange.
    by apply list_elem_of_lookup_2 in Hfixed. }
  rewrite (checkBestResponse_program self p player c fixed) by (done || set_solver).
  f_equal. apply negb_true_iff, Z.eqb_neq, Hexact; [done | set_solver |].
  apply best_response_program_feasible. exists (point_mass (opponents p player)).
  split; [by apply conjecture_point_mass |].
  intros a Ha. rewrite !expected_utility_point_mass by done.
  rewrite !with_action_opponents by done.
  rewrite (list_insert_id p player fixed Hfixed). by apply Hnash.
Qed.

Lemma nash_singleton_fixed_point p :
  length p = n → Forall (λ a, a < A) p → nash gw p →
  reduceProfiles self [p] = Ok [p].
Proof.
  intros Hlen Hrange Hnash.
  assert (Hwf : wf_profiles self [p]).
  { intros q Hq. by apply list_elem_of_singleton in Hq as ->. }
  rewrite (reduceProfiles_Ok self [p] Hwf Hnet). f_equal.
  apply filter_Forall_id, Forall_singleton.
  apply nash_survives; [done | by apply list_elem_of_singleton | done..].
Qed.

End Nash.

(** X17. Pure Nash equilibria are never eliminated: with a backend that
    answers every best-response program exactly, on any network whose
    nodes cover the players, every initial profile at which no player
    gains by changing its own action is in the list [solve] returns. *)
Theorem solve_keeps_nash gw slv G self fuel R rounds p :
  init gw slv (Some G) = Ok self →
  wf_network self →
  solver_exact self →
  solve self fuel = Some (Ok (R, rounds)) →
  p ∈ profiles self →
  nash gw p →
  p ∈ R.
Proof.
  intros Hinit Hnet Hexact Hsolve Hp Hnash.
  assert (Hgw : gameWrapper self = gw) by (by injection Hinit as <-).
  assert (Hprod : ∀ q, q ∈ profiles self →
            length q = numPlayers (gameWrapper self)
            ∧ Forall (λ a, a < numActions (gameWrapper self)) q).
  { injection Hinit as <-. cbn [profiles gameWrapper]. intros q Hq.
    apply elem_of_product in Hq as [Hlen Hall]. split; [done |].
    eapply Forall_impl; [exact Hall |]. intros a Ha. by apply elem_of_range in Ha. }
  destruct (Hprod p Hp) as [Hlen Hrange].
  assert (HT : reduceProfiles self [p] = Ok [p]).
  { apply nash_singleton_fixed_point; [done.. |]. by rewrite Hgw. }
  unfold solve in Hsolve.
  apply (solve_loop_contains self Hnet Hexact [p] fuel HT _ _ _ _ _ _) in Hsolve.
  - apply Hsolve. by apply list_elem_of_singleton.
  - intros q Hq. by apply Hprod.
  - intros q Hq. by apply Hprod.
  - intros q Hq. by apply list_elem_of_singleton in Hq as ->.
Qed.

(** ** Complete networks *)

Lemma filter_ext_in {A} (P Q : A → Prop) `{!∀ x, Decision (P x)}
    `{!∀ x, Decision (Q x)} (l : list A) :
  (∀ x, x ∈ l → P x ↔ Q x) → filter P l = filter Q l.
Proof.
  induction l as [|x l IH]; intros Hext; [done |].
  rewrite !filter_cons, IH by (intros y Hy; apply Hext; by right).
  destruct (decide (P x)) as [HP|HP], (decide (Q x)) as [HQ|HQ]; try done.
  - destruct HQ. apply Hext; [left | done].
  - destruct HP. apply Hext; [left | done].
Qed.

Lemma forallb_ext_elem {A} (f g : A → bool) (l : list A) :
  (∀ x, x ∈ l → f x = g x) → forallb f l = forallb g l.
Proof.
  induction l as [|x l IH]; intros Hext; [done |].
  cbn [forallb]. rewrite (Hext x) by left. f_equal.
  apply IH. intros y Hy. apply Hext. by right.
Qed.

Lemma opponents_agree (p q : list nat) player :
  length p = length q →
  (∀ i, i ≠ player → p !! i = q !! i) →
  opponents p player = opponents q player.
Proof.
  intros Hlen Hagree. apply list_eq. intros i.
  destruct (decide (i < player)) as [Hlt|Hge].
  - rewrite !opponents_lookup_lt by done. apply Hagree. lia.
  - rewrite !opponents_lookup_ge by lia. apply Hagree. lia.
Qed.

Lemma Qsum_singleton x : (Qsum [x] == x)%Q.
Proof. unfold Qsum. cbn [foldr]. ring. Qed.

(** On a support of one tuple the program is feasible exactly when the
    fixed action is a best response to that tuple. *)
Lemma feasible_singleton (self : PotluckSolver) (player fixed : nat) (t0 : list nat) :
  pl.feasible (best_response_program self player fixed (elements ({[ t0 ]} : gset (list nat))))
  ↔ ∀ a, a < numActions (gameWrapper self) →
         (game (gameWrapper self) (with_action t0 player a) player
          <= game (gameWrapper self) (with_action t0 player fixed) player)%Q.
Proof.
  rewrite best_response_program_feasible. split.
  - intros (w & [_ Hsum] & Hbr) a Ha. specialize (Hbr a Ha).
    unfold expected_utility in Hbr. rewrite elements_singleton in Hsum, Hbr.
    cbn [fmap list_fmap] in Hsum, Hbr. rewrite Qsum_singleton in Hsum.
    rewrite !Qsum_singleton, Hsum in Hbr. lra.
  - intros Hbest. exists (point_mass t0).
    split; [apply conjecture_point_mass; by apply elem_of_singleton |].
    intros a Ha. rewrite !expected_utility_point_mass by (by apply elem_of_singleton).
    by apply Hbest.
Qed.

Section CompleteNetwork.

Variable self : PotluckSolver.
Let gw := gameWrapper self.
Let n := numPlayers (gameWrapper self).
Let A := numActions (gameWrapper self).

Hypothesis Hcomplete : complete_network self.
Hypothesis Hexact : solver_exact self.

Lemma complete_network_wf : wf_network self.
Proof.
  intros i Hi. destruct (Hcomplete i Hi) as (nbrs & Hnb & Hall).
  exists nbrs. split; [done |]. intros j Hj. by apply Hall in Hj as [Hj _].
Qed.

(** A player that sees every other player cannot tell the profile from
    any candidate but the profile itself. *)
Lemma consistent_set_complete (S : list (list nat)) p player nbrs :
  wf_profiles self S → p ∈ S →
  network self !! player = Some nbrs →
  (∀ j, j ∈ nbrs ↔ j < n ∧ j ≠ player) →
  consistent_set p nbrs player S = {[ opponents p player ]}.
Proof.
  intros HS Hp Hnb Hall. apply set_eq. intros t.
  rewrite elem_of_consistent_set, elem_of_singleton. split.
  - intros (q & Hq & Hag & ->). symmetry.
    apply opponents_agree; [by rewrite (HS p Hp), (HS q Hq) |].
    intros i Hne. destruct (decide (i < n)) as [Hlt|Hge].
    + unfold agrees in Hag. rewrite Forall_forall in Hag. apply Hag, Hall. done.
    + rewrite !lookup_ge_None_2; [done | rewrite (HS q Hq) | rewrite (HS p Hp)];
        unfold n in Hge; lia.
  - intros ->. exists p. split; [done |]. split; [apply agrees_refl | done].
Qed.

Lemma passes_complete (S : list (list nat)) p player :
  wf_profiles self S → p ∈ S → Forall (λ a, a < A) p → player < n →
  passes self S p player
  = forallb (λ a, Qle_bool (game gw (<[player := a]> p) player) (game gw p player))
            (range A).
Proof.
  intros HS Hp Hrange Hpl.
  destruct (Hcomplete player Hpl) as (nbrs & Hnb & Hall).
  assert (Hlt : player < length p) by (by rewrite (HS p Hp)).
  destruct (lookup_lt_is_Some_2 p player Hlt) as [fixed Hfixed].
  assert (Hfixed_lt : fixed < A).
  { rewrite Forall_forall in Hrange. apply Hrange.
    by apply list_elem_of_lookup_2 in Hfixed. }
  unfold passes.
  rewrite (consistentStrategies_Ok self p player S nbrs); [|done|..]; cycle 1.
  { intros i Hi. rewrite (HS p Hp). by apply Hall in Hi as [Hi _]. }
  { intros q i Hq Hi. rewrite (HS q Hq). by apply Hall in Hi as [Hi _]. }
  rewrite (consistent_set_complete S p player nbrs) by done.
  rewrite (checkBestResponse_program self p player _ fixed) by (done || set_solver).
  pose proof (Hexact player fixed {[ opponents p player ]} Hfixed_lt) as Hex.
  unfold solver_exact_on in Hex. rewrite feasible_singleton in Hex.
  assert (Hiff : (∀ a, a < A →
                    (game gw (<[player := a]> p) player <= game gw p player)%Q)
                 ↔ solver self (best_response_program self player fixed
                                  (elements ({[ opponents p player ]} : gset (list nat))))
                   ≠ pl.LpStatusInfeasible).
  { rewrite <- Hex by set_solver. split.
    - intros H a Ha. rewrite !with_action_opponents by done.
      rewrite (list_insert_id p player fixed Hfixed). by apply H.
    - intros H a Ha. specialize (H a Ha). rewrite !with_action_opponents in H by done.
      by rewrite (list_insert_id p player fixed Hfixed) in H. }
  destruct (forallb _ (range A)) eqn:Hall_le.
  - rewrite forallb_forall in Hall_le.
    assert (Hne : solver self (best_response_program self player fixed
                                 (elements ({[ opponents p player ]} : gset (list nat))))
                  ≠ pl.LpStatusInfeasible).
    { apply Hiff. intros a Ha. apply Qle_bool_iff, Hall_le.
      by apply list_elem_of_In, elem_of_range. }
    apply Z.eqb_neq in Hne. by rewrite Hne.
  - destruct (Z.eqb_spec
                (solver self (best_response_program self player fixed
                                (elements ({[ opponents p player ]} : gset (list nat)))))
                pl.LpStatusInfeasible) as [Heq|Hne]; [done |].
    pose proof (proj2 Hiff Hne) as Hbest. assert (Htrue : forallb
        (λ a, Qle_bool (game gw (<[player := a]> p) player) (game gw p player))
        (range A) = true).
    { apply forallb_forall. intros a Ha. apply list_elem_of_In, elem_of_range in Ha.
      apply Qle_bool_iff. by apply Hbest. }
    congruence.
Qed.

Lemma survivesb_complete (S : list (list nat)) p :
  wf_profiles self S → p ∈ S → Forall (λ a, a < A) p →
  survivesb self S p = nashb gw p.
Proof.
  intros HS Hp Hrange. unfold survivesb, nashb.
  apply forallb_ext_elem. intros player Hpl.
  apply elem_of_range in Hpl. by apply passes_complete.
Qed.

Lemma reduceProfiles_complete (S : list (list nat)) :
  wf_profiles self S → (∀ p, p ∈ S → Forall (λ a, a < A) p) →
  reduceProfiles self S = Ok (filter (λ p, nashb gw p = true) S).
Proof.
  intros HS Hrange. rewrite (reduceProfiles_Ok self S HS complete_network_wf).
  f_equal. apply filter_ext_in. intros p Hp.
  by rewrite survivesb_complete by (done || by apply Hrange).
Qed.

End CompleteNetwork.

(** X18. On a complete network, with a backend that answers every
    best-response program exactly, one round keeps exactly the pure Nash
    equilibria of its input: a profile stays if and only if no player
    gains by changing its own action, whatever the other candidates are. *)
Theorem reduceProfiles_complete_network (self : PotluckSolver) (S : list (list nat)) :
  complete_network self →
  solver_exact self →
  wf_profiles self S →
  (∀ p, p ∈ S → Forall (λ a, a < numActions (gameWrapper self)) p) →
  ∃ R, reduceProfiles self S = Ok R
     ∧ R = filter (λ p, nashb (gameWrapper self) p = true) S
     ∧ ∀ p, p ∈ R ↔ p ∈ S ∧ nash (gameWrapper self) p.
Proof.
  intros Hcomplete Hexact HS Hrange. eexists. split; [|split; [reflexivity |]].
  - by apply reduceProfiles_complete.
  - intros p. by rewrite list_elem_of_filter, nashb_true, (comm and).
Qed.

(** X19. On a complete network, with such a backend, [solve] returns
    the pure Nash equilibria of the game, in the order of the initial
    list, after one or two rounds. *)
Theorem solve_complete_network gw slv G self :
  init gw slv (Some G) = Ok self →
  complete_network self →
  solver_exact self →
  ∃ rounds,
    1 ≤ rounds ≤ 2
    ∧ ∀ fuel, 2 ≤ fuel →
        solve self fuel
        = Some (Ok (filter (λ p, nashb gw p = true) (profiles self), rounds)).
Proof.
  intros Hinit Hcomplete Hexact.
  assert (Hgw : gameWrapper self = gw) by (by injection Hinit as <-).
  assert (Hprod : ∀ q, q ∈ profiles self →
            length q = numPlayers (gameWrapper self)
            ∧ Forall (λ a, a < numActions (gameWrapper self)) q).
  { injection Hinit as <-. cbn [profiles gameWrapper]. intros q Hq.
    apply elem_of_product in Hq as [Hlen Hall]. split; [done |].
    eapply Forall_impl; [exact Hall |]. intros a Ha. by apply elem_of_range in Ha. }
  rewrite <- Hgw.
  set (C0 := profiles self).
  set (C1 := filter (λ p, nashb (gameWrapper self) p = true) C0).
  assert (Hred0 : reduceProfiles self C0 = Ok C1).
  { apply reduceProfiles_complete; [done.. | |]; intros q Hq; by apply Hprod. }
  assert (Hred1 : reduceProfiles self C1 = Ok C1).
  { rewrite (reduceProfiles_complete self Hcomplete Hexact C1).
    - f_equal. apply filter_Forall_id, Forall_forall. intros q Hq.
      by apply list_elem_of_filter in Hq as [Hq _].
    - intros q Hq. apply list_elem_of_filter in Hq as [_ Hq]. by apply Hprod.
    - intros q Hq. apply list_elem_of_filter in Hq as [_ Hq]. by apply Hprod. }
  assert (Hle : length C1 ≤ length C0) by apply length_filter.
  destruct (decide (length C1 < length C0)) as [Hlt|Hge].
  - exists 2. split; [lia |]. intros [|[|fuel]] Hfuel; [lia.. |].
    unfold solve. fold C0. rewrite solve_loop_eq. cbn [shrunk].
    rewrite Hred0, solve_loop_eq. cbn [shrunk].
    rewrite bool_decide_eq_true_2 by done.
    rewrite Hred1, solve_loop_eq. cbn [shrunk].
    by rewrite bool_decide_eq_false_2 by lia.
  - exists 1. split; [lia |]. intros [|fuel] Hfuel; [lia |].
    unfold solve. fold C0. rewrite solve_loop_eq. cbn [shrunk].
    rewrite Hred0, solve_loop_eq. cbn [shrunk].
    by rewrite bool_decide_eq_false_2 by lia.
Qed.

Lemma pd_linked_complete : complete_network (pd_solver pd_linked).
Proof.
  intros i Hi. cbn in Hi. destruct i as [|[|i]]; [| |lia].
  - exists [1]. split; [reflexivity |]. intros j. rewrite list_elem_of_singleton.
    cbn. lia.
  - exists [0]. split; [reflexivity |]. intros j. rewrite list_elem_of_singleton.
    cbn. lia.
Qed.

Lemma pd_profiles_in_range G p :
  p ∈ pd_profiles → Forall (λ a, a < numActions (gameWrapper (pd_solver G))) p.
Proof.
  intros Hp. unfold pd_profiles in Hp. cbn.
  repeat (apply elem_of_cons in Hp as [->|Hp]; [repeat constructor; lia |]).
  by apply elem_of_nil in Hp.
Qed.

Lemma with_action_opponents_round_trip_witness :
  with_action (opponents [0; 1] 0) 0 0 = [0; 1]
  ∧ opponents (with_action [1] 0 0) 0 = [1]
  ∧ with_action [1] 0 0 !! 0 = Some 0
  ∧ length (with_action [1] 0 0) = 2.
Proof.
  apply (with_action_opponents_round_trip [0; 1] [1] 0 0).
  - reflexivity.
  - cbn. lia.
Defined.

Lemma solve_keeps_nash_witness : [1; 1] ∈ [[1; 1]].
Proof.
  apply (solve_keeps_nash pd_game vertex_backend pd_isolated (pd_solver pd_isolated)
           4 [[1; 1]] 2 [1; 1]).
  - reflexivity.
  - apply pd_isolated_wf.
  - apply (vertex_backend_exact (pd_solver pd_isolated) eq_refl eq_refl).
  - vm_compute. reflexivity.
  - cbn [profiles pd_solver]. unfold pd_profiles.
    do 3 (apply elem_of_cons; right). by apply list_elem_of_singleton.
  - apply nashb_true. vm_compute. reflexivity.
Defined.

Lemma reduceProfiles_complete_network_witness :
  ∃ R, reduceProfiles (pd_solver pd_linked) pd_profiles = Ok R
     ∧ R = filter (λ p, nashb pd_game p = true) pd_profiles
     ∧ ∀ p, p ∈ R ↔ p ∈ pd_profiles ∧ nash pd_game p.
Proof.
  apply (reduceProfiles_complete_network (pd_solver pd_linked) pd_profiles).
  - apply pd_linked_complete.
  - apply (vertex_backend_exact (pd_solver pd_linked) eq_refl eq_refl).
  - apply pd_wf_profiles.
  - apply pd_profiles_in_range.
Defined.

Lemma solve_complete_network_witness :
  ∃ rounds,
    1 ≤ rounds ≤ 2
    ∧ ∀ fuel, 2 ≤ fuel →
        solve (pd_solver pd_linked) fuel
        = Some (Ok (filter (λ p, nashb pd_game p = true)
                      (profiles (pd_solver pd_linked)), rounds)).
Proof.
  apply (solve_complete_network pd_game vertex_backend pd_linked (pd_solver pd_linked)).
  - reflexivity.
  - apply pd_linked_complete.
  - apply (vertex_backend_exact (pd_solver pd_linked) eq_refl eq_refl).
Defined.
